(** * Text Utils: the document stream, the tokenizer and the vocabulary

    A shallow embedding of [prec/textutils.py]: the [Documents] class
    (lazy tokenisation of raw text lines), the functions [vocabulary],
    [sub_vocabulary], [corpus], [merge_documents] and [corpus_histogram],
    and the parts of [gensim.corpora.Dictionary] and [nltk.util.ngrams]
    that these functions call.

    Conventions of the model.
    - A Python [str] is a [string]; the character functions below follow
      Python on ASCII text and leave other bytes untouched.
    - A Python [int] that counts or indexes is a [nat]; a threshold that the
      caller may choose negative is a [Z].
    - A Python [dict] is a [gmap]; a Python object that is mutated through a
      reference lives in a [heap].
    - A computation that may raise is a [result]; loops are folds in that
      monad, in the order of the source. *)

From Stdlib Require Import ZArith Ascii String.
From stdpp Require Import base option list strings sorting gmap fin_maps.

Local Open Scope Z_scope.
Local Open Scope nat_scope.

(** ** Python results *)

Module Py.

(** The exception classes met in this module; all derive from [Exception]. *)
Inductive exn : Type :=
  | TypeError
  | AttributeError
  | KeyError
  | IndexError
  | LookupError
  | ValueError
  | UnicodeDecodeError.

Global Instance exn_eq_dec : EqDecision exn.
Proof. solve_decision. Defined.

Inductive result (A : Type) : Type :=
  | Return (a : A)
  | Raise (e : exn).
Global Arguments Return {A} a.
Global Arguments Raise {A} e.

Global Instance result_eq_dec `{EqDecision A} : EqDecision (result A).
Proof. solve_decision. Defined.

Global Instance result_ret : MRet result := @Return.
Global Instance result_bind : MBind result := λ A B f m,
  match m with
  | Return a => f a
  | Raise e => Raise e
  end.
Global Instance result_fmap : FMap result := λ A B f m,
  match m with
  | Return a => Return (f a)
  | Raise e => Raise e
  end.

(** A [for] loop over a list whose body may raise: the state is threaded
    from left to right and the first exception leaves the loop. *)
Fixpoint for_each {A S : Type} (body : S → A → result S) (l : list A) (s : S)
    : result S :=
  match l with
  | [] => Return s
  | x :: l' => s' ← body s x; for_each body l' s'
  end.

(** A list comprehension [[f x for x in l]] whose element expression may
    raise. *)
Fixpoint comprehension {A B : Type} (f : A → result B) (l : list A)
    : result (list B) :=
  match l with
  | [] => Return []
  | x :: l' => y ← f x; ys ← comprehension f l'; Return (y :: ys)
  end.

(** A filtering comprehension [[x for x in l if c x]] whose condition may
    raise. *)
Fixpoint comprehension_if {A : Type} (c : A → result bool) (l : list A)
    : result (list A) :=
  match l with
  | [] => Return []
  | x :: l' =>
      b ← c x; ys ← comprehension_if c l';
      Return (if b : bool then x :: ys else ys)
  end.

(** [range(1, N+1)] *)
Definition range1 (N : nat) : list nat := seq 1 N.

End Py.
Export Py.

(** ** Python string methods *)

Module Str.

Definition code (c : ascii) : nat := nat_of_ascii c.

Definition newline : ascii := ascii_of_nat 10.
Definition underscore : ascii := ascii_of_nat 95.

(** [str.isspace] on ASCII: tab, line feed, vertical tab, form feed,
    carriage return, the four separators 28..31 and the blank. *)
Definition isspace (c : ascii) : bool :=
  let n := code c in
  ((9 <=? n) && (n <=? 13)) || ((28 <=? n) && (n <=? 32)).

(** Membership in [string.punctuation]. *)
Definition ispunct (c : ascii) : bool :=
  let n := code c in
  ((33 <=? n) && (n <=? 47)) || ((58 <=? n) && (n <=? 64))
  || ((91 <=? n) && (n <=? 96)) || ((123 <=? n) && (n <=? 126)).

Definition isupper (c : ascii) : bool :=
  let n := code c in (65 <=? n) && (n <=? 90).
Definition islower (c : ascii) : bool :=
  let n := code c in (97 <=? n) && (n <=? 122).
Definition isdigit (c : ascii) : bool :=
  let n := code c in (48 <=? n) && (n <=? 57).

Fixpoint filter_chars (keep : ascii → bool) (s : string) : string :=
  match s with
  | EmptyString => EmptyString
  | String c s' =>
      if keep c then String c (filter_chars keep s') else filter_chars keep s'
  end.

Fixpoint map_chars (f : ascii → ascii) (s : string) : string :=
  match s with
  | EmptyString => EmptyString
  | String c s' => String (f c) (map_chars f s')
  end.

(** [s.replace('\n', '')] *)
Definition remove_newlines (s : string) : string :=
  filter_chars (λ c, negb (bool_decide (c = newline))) s.

Fixpoint lstrip (s : string) : string :=
  match s with
  | EmptyString => EmptyString
  | String c s' => if isspace c then lstrip s' else s
  end.

(** [s.rstrip()]: a character is kept when something other than white space
    follows it or when it is itself no white space. *)
Fixpoint rstrip (s : string) : string :=
  match s with
  | EmptyString => EmptyString
  | String c s' =>
      match rstrip s' with
      | EmptyString => if isspace c then EmptyString else String c EmptyString
      | r => String c r
      end
  end.

(** [s.strip()] *)
Definition strip (s : string) : string := rstrip (lstrip s).

(** [s.translate(str.maketrans('', '', string.punctuation))] *)
Definition remove_punctuation (s : string) : string :=
  filter_chars (λ c, negb (ispunct c)) s.

Definition lower_char (c : ascii) : ascii :=
  if isupper c then ascii_of_nat (code c + 32) else c.

(** [s.lower()] *)
Definition lower (s : string) : string := map_chars lower_char s.

(** ['_'.join(words)] on a sequence of [str]. *)
Fixpoint join (sep : string) (ws : list string) : string :=
  match ws with
  | [] => EmptyString
  | [w] => w
  | w :: ws' => w +:+ sep +:+ join sep ws'
  end.

(** ['_'.join(items)] where an item may be [None]: joining raises
    [TypeError] as soon as one item is not a [str]. *)
Definition join_items (sep : string) (items : list (option string))
    : result string :=
  match mapM id items with
  | Some ws => Return (join sep ws)
  | None => Raise TypeError
  end.

End Str.

(** ** The NLTK functions the tokenizer calls *)

(** [nltk.tokenize.sent_tokenize], [nltk.word_tokenize] and
    [nltk.corpus.stopwords.words('english')] are trained or data-driven
    library routines; the tokenizer is modelled over any implementation of
    them.  Each may raise (a missing resource, text it cannot decode). *)
Class NLTK : Type := {
  sent_tokenize : string → result (list string);
  word_tokenize : string → result (list string);
  stopwords_english : result (list string);
}.

Module Ngrams.

(** The options of [nltk.util.ngrams]: a pad symbol is any object, [None]
    by default. *)
Record padding : Type := Padding {
  pad_right : bool;
  pad_left : bool;
  left_pad_symbol : option string;
  right_pad_symbol : option string;
}.

Definition no_padding : padding := Padding false false None None.

(** [nltk.util.pad_sequence]: [n - 1] pad symbols on each requested side. *)
Definition pad_sequence (sequence : list string) (n : nat) (p : padding)
    : list (option string) :=
  (if pad_left p then replicate (n - 1) (left_pad_symbol p) else [])
  ++ (Some <$> sequence)
  ++ (if pad_right p then replicate (n - 1) (right_pad_symbol p) else []).

(** The sliding window of width [n]: one tuple per start position that has
    [n] items to its right, in order. *)
Fixpoint windows {A : Type} (n : nat) (l : list A) : list (list A) :=
  match l with
  | [] => []
  | _ :: l' => if decide (n ≤ length l) then take n l :: windows n l' else []
  end.

(** [list(nltk.util.ngrams(sequence, n, **padding))] *)
Definition ngrams (sequence : list string) (n : nat) (p : padding)
    : list (list (option string)) :=
  windows n (pad_sequence sequence n p).

End Ngrams.
Export Ngrams.

(** ** Documents *)

(** One item of a yielded document: a [str] (a token, or a sentence of
    [string2sents]) or, when the sentence structure is kept, the list of the
    tokens of one sentence.  A document is a Python list of such items; the
    empty list is the same value in every mode. *)
Inductive item : Type :=
  | Str (s : string)
  | Lst (l : list string).

Global Instance item_eq_dec : EqDecision item.
Proof. solve_decision. Defined.

Definition document : Type := list item.

(** What [__iter__] prints: the progress notice and the failure notice go to
    standard error, the offending line to standard output.  The time stamp
    of [arrow.now()] is left out. *)
Inductive event : Type :=
  | Progress (counter : nat)
  | PrintLine (line : string)
  | Failure (counter : nat) (e : exn).

Section Documents.
Context `{nltk : NLTK}.

(** The attributes set by [Documents.__init__]. *)
Record Documents : Type := {
  iter_object : list string;
  counter : nat;
  n : nat;
  doc_padding : padding;
  keep_sents : bool;
  is_tokenzied : bool;
}.

(** [Documents(iter_object, n=1, pad_right=False, pad_left=False,
    left_pad_symbol=None, right_pad_symbol=None, keep_sents=False,
    is_tokenzied=True)] *)
Definition Documents_init (iter_object : list string) (n : nat) (p : padding)
    (keep_sents is_tokenzied : bool) : Documents :=
  {| iter_object := iter_object; counter := 0; n := n; doc_padding := p;
     keep_sents := keep_sents; is_tokenzied := is_tokenzied |}.

(** [text_string.replace('\n','').strip()] *)
Definition clean_line (text_string : string) : string :=
  Str.strip (Str.remove_newlines text_string).

(** [Documents.string2sents] *)
Definition string2sents (text_string : string) : result document :=
  sents ← sent_tokenize (clean_line text_string);
  for_each (λ sents sent, Return (sents ++ [Str sent])) sents [].

(** Lines 128-131: the words of one sentence that are no stop words. *)
Definition tokens_of_sentence (sent : string) : result (list string) :=
  words ← word_tokenize (Str.lower (Str.remove_punctuation sent));
  comprehension_if
    (λ token, stop ← stopwords_english;
              Return (negb (bool_decide (token ∈ stop))))
    words.

(** Lines 136-142: the n-grams of order [n], each joined with an
    underscore. *)
Definition ith_gram_tokens (tokens_in_sentence : list string) (n : nat)
    (p : padding) : result (list string) :=
  comprehension (Str.join_items (String Str.underscore EmptyString))
    (ngrams tokens_in_sentence n p).

(** Lines 133-145: the loop over the gram orders.  Its state is the pair of
    [ngram_tokens] and [ngram_tokens_in_sentence]. *)
Definition gram_loop (tokens_in_sentence : list string) (N : nat)
    (p : padding) (ngram_tokens : list string)
    : result (list string * list string) :=
  for_each
    (λ '(ngram_tokens, ngram_tokens_in_sentence) n,
       ith ← ith_gram_tokens tokens_in_sentence n p;
       Return (ngram_tokens ++ ith, ngram_tokens_in_sentence ++ ith))
    (range1 N) (ngram_tokens, []).

(** Lines 123-147: the loop over the sentences.  Its state is the pair of
    [ngram_tokens] and [ngram_tokens_sents]. *)
Definition sentence_loop (text_string : string) (N : nat) (p : padding)
    : result (list string * list (list string)) :=
  sents ← sent_tokenize (clean_line text_string);
  for_each
    (λ '(ngram_tokens, ngram_tokens_sents) sent,
       tokens_in_sentence ← tokens_of_sentence sent;
       grams ← gram_loop tokens_in_sentence N p ngram_tokens;
       let '(ngram_tokens, ngram_tokens_in_sentence) := grams in
       Return (ngram_tokens, ngram_tokens_sents ++ [ngram_tokens_in_sentence]))
    sents ([], []).

(** [Documents.string2tokens] *)
Definition string2tokens (text_string : string) (N : nat) (p : padding)
    (keep_sents : bool) : result document :=
  collected ← sentence_loop text_string N p;
  let '(ngram_tokens, ngram_tokens_sents) := collected in
  if keep_sents return result document
  then Return (Lst <$> ngram_tokens_sents)
  else Return (Str <$> ngram_tokens).

(** The expression under [try] in [__iter__]. *)
Definition tokenize (self : Documents) (line : string) : result document :=
  if is_tokenzied self
  then string2tokens line (n self) (doc_padding self) (keep_sents self)
  else string2sents line.

(** The state of a running [__iter__]: the object, what has been yielded and
    what has been printed so far. *)
Record iteration : Type := {
  self_now : Documents;
  yielded : list document;
  printed : list event;
}.

Definition set_counter (self : Documents) (c : nat) : Documents :=
  {| iter_object := iter_object self; counter := c; n := n self;
     doc_padding := doc_padding self; keep_sents := keep_sents self;
     is_tokenzied := is_tokenzied self |}.

(** One turn of the loop of [Documents.__iter__]. *)
Definition iter_step (st : iteration) (line : string) : iteration :=
  let self := self_now st in
  let notice :=
    if (0 <? counter self) && (counter self mod 1000 =? 0)
    then [Progress (counter self)] else [] in
  let '(doc, failure) :=
    match tokenize self line with
    | Return doc => (doc, [])
    | Raise e => ([], [PrintLine line; Failure (counter self) e])
    end in
  {| self_now := set_counter self (S (counter self));
     yielded := yielded st ++ [doc];
     printed := printed st ++ notice ++ failure |}.

(** [Documents.__iter__], run until the line source is exhausted. *)
Definition Documents_iter (self : Documents) : iteration :=
  foldl iter_step
    {| self_now := self; yielded := []; printed := [] |}
    (iter_object self).

End Documents.

(** ** A reference implementation of the NLTK interface

    A rule-based stand-in for the trained tokenizers, used to run the model:
    a sentence ends at a full stop, question mark or exclamation mark that is
    followed by white space or by the end of the text; words are separated by
    white space; the stop words are the head of NLTK's English list. *)
Module Reference.

Definition is_terminator (c : ascii) : bool :=
  bool_decide (c = "."%char) || bool_decide (c = "?"%char)
  || bool_decide (c = "!"%char).

Definition at_boundary (rest : string) : bool :=
  match rest with
  | EmptyString => true
  | String c _ => Str.isspace c
  end.

Fixpoint split_sentences (cur rest : string) : list string :=
  match rest with
  | EmptyString =>
      match cur with
      | EmptyString => []
      | _ => [String.rev cur]
      end
  | String c rest' =>
      match cur with
      | EmptyString =>
          if Str.isspace c then split_sentences cur rest'
          else if is_terminator c && at_boundary rest'
          then String.rev (String c cur) :: split_sentences EmptyString rest'
          else split_sentences (String c cur) rest'
      | _ =>
          if is_terminator c && at_boundary rest'
          then String.rev (String c cur) :: split_sentences EmptyString rest'
          else split_sentences (String c cur) rest'
      end
  end.

Definition stop_list : list string :=
  ["i"; "me"; "my"; "myself"; "we"; "our"; "ours"; "ourselves"; "you";
   "your"; "yours"; "yourself"; "yourselves"; "he"; "him"; "his"; "himself";
   "she"; "her"; "hers"; "herself"; "it"; "its"; "itself"; "they"; "them";
   "their"; "theirs"; "themselves"; "what"; "which"; "who"; "whom"; "this";
   "that"; "these"; "those"; "am"; "is"; "are"; "was"; "were"; "be"; "been";
   "being"; "have"; "has"; "had"; "having"; "do"; "does"; "did"; "doing";
   "a"; "an"; "the"; "and"; "but"; "if"; "or"; "because"; "as"; "until";
   "while"; "of"; "at"; "by"; "for"; "with"; "about"; "against"; "between";
   "into"; "through"; "during"; "before"; "after"; "above"; "below"; "to";
   "from"; "up"; "down"; "in"; "out"; "on"; "off"; "over"; "under"].

Definition nltk : NLTK := {|
  sent_tokenize text := Return (split_sentences EmptyString text);
  word_tokenize text := Return (String.words text);
  stopwords_english := Return stop_list;
|}.

End Reference.

(** ** Python dictionaries *)

Module Dict.

(** [dict(pairs)] and the dict comprehension: the pairs are stored from left
    to right, a later pair replacing an earlier one with the same key. *)
Definition of_pairs `{Countable K} {V : Type} (pairs : list (K * V))
    : gmap K V :=
  foldl (λ m kv, <[kv.1 := kv.2]> m) ∅ pairs.

(** [d.items()].  The order in which a [gmap] lists its items is fixed but
    is not Python's insertion order; it shows only where a comprehension
    maps two items to one key. *)
Definition items `{Countable K} {V : Type} (d : gmap K V) : list (K * V) :=
  map_to_list d.

(** [d.keys()] and [d.values()] *)
Definition keys `{Countable K} {V : Type} (d : gmap K V) : list K :=
  (items d).*1.
Definition values `{Countable K} {V : Type} (d : gmap K V) : list V :=
  (items d).*2.

(** [d[k]] *)
Definition getitem `{Countable K} {V : Type} (d : gmap K V) (k : K)
    : result V :=
  match d !! k with
  | Some v => Return v
  | None => Raise KeyError
  end.

(** [d.pop(k)]: the value removed and the dict that is left. *)
Definition pop `{Countable K} {V : Type} (d : gmap K V) (k : K)
    : result (V * gmap K V) :=
  match d !! k with
  | Some v => Return (v, delete k d)
  | None => Raise KeyError
  end.

(** [{kv(k, v) for k, v in d.items()}] *)
Definition comprehend `{Countable K, Countable K'} {V V' : Type}
    (kv : K * V → result (K' * V')) (d : gmap K V) : result (gmap K' V') :=
  pairs ← comprehension kv (items d); Return (of_pairs pairs).

(** [d.iteritems()]: the module is Python 3 code (it calls [print] with the
    [file] keyword and [str.maketrans]), where a [dict] or [defaultdict] has
    no attribute [iteritems]; the attribute lookup raises. *)
Definition iteritems `{Countable K} {V : Type} (d : gmap K V)
    : result (list (K * V)) :=
  Raise AttributeError.

(** [six.iteritems(d)], which is [iter(d.items())] under Python 3. *)
Definition six_iteritems `{Countable K} {V : Type} (d : gmap K V)
    : list (K * V) :=
  items d.

End Dict.

(** ** The regular expression of the vocabulary filter *)

Definition is_word_char (c : ascii) : bool :=
  Str.isupper c || Str.islower c || bool_decide (c = Str.underscore).

(** [re.match('^[A-Za-z_]*$', token)] as a truth value.  Without the
    [MULTILINE] flag [$] matches at the end of the string and also just
    before a newline that is the last character. *)
Fixpoint re_match_alpha (token : string) : bool :=
  match token with
  | EmptyString => true
  | String c rest =>
      if is_word_char c then re_match_alpha rest
      else bool_decide (c = Str.newline) && bool_decide (rest = EmptyString)
  end.

(** ** gensim's Dictionary *)

Module Gensim.

(** The attributes of a [gensim.corpora.Dictionary]. *)
Record Dictionary : Type := {
  token2id : gmap string nat;
  id2token : gmap nat string;
  cfs : gmap nat nat;
  dfs : gmap nat nat;
  num_docs : nat;
  num_pos : nat;
  num_nnz : nat;
}.

(** [Dictionary()] *)
Definition empty : Dictionary :=
  {| token2id := ∅; id2token := ∅; cfs := ∅; dfs := ∅;
     num_docs := 0; num_pos := 0; num_nnz := 0 |}.

Global Instance Dictionary_inhabited : Inhabited Dictionary := populate empty.

(** [len(dictionary)] *)
Definition len (d : Dictionary) : nat := size (token2id d).

(** [dictionary.keys()] *)
Definition keys (d : Dictionary) : list nat := Dict.values (token2id d).

(** [dictionary[tokenid]]: the reverse mapping is recomputed when its size
    differs from that of [token2id]; the refreshed cache is not stored
    back, which no caller below can observe. *)
Definition getitem (d : Dictionary) (tokenid : nat) : result string :=
  let id2token :=
    if decide (size (id2token d) = size (token2id d)) then id2token d
    else Dict.of_pairs ((λ kv, (kv.2, kv.1)) <$> Dict.items (token2id d)) in
  Dict.getitem id2token tokenid.

(** The order of [sorted] on pairs whose first components are distinct. *)
Definition by_word (x y : string * nat) : Prop := String.le x.1 y.1.
Definition by_id (x y : nat * nat) : Prop := x.1 ≤ y.1.
Global Instance by_word_dec : RelDecision by_word.
Proof. intros x y. unfold by_word. apply _. Defined.
Global Instance by_id_dec : RelDecision by_id.
Proof. intros x y. unfold by_id. apply _. Defined.

(** The first loop of [doc2bow]: the number of occurrences of each word.  An
    item that is no [str] is passed to [str(w, 'utf-8')], which raises
    [TypeError] for a list. *)
Definition count_words (document : document) : result (gmap string nat) :=
  for_each
    (λ counter w,
       match w with
       | Str w => Return (<[w := S (default 0 (counter !! w))]> counter)
       | Lst _ => Raise TypeError
       end)
    document ∅.

(** [sorted(x for x in counter.items() if x[0] not in token2id)]: the words
    are distinct, so the pairs are ordered by their words. *)
Definition missing (counter : gmap string nat) (token2id : gmap string nat)
    : list (string * nat) :=
  merge_sort by_word
    (filter (λ x, token2id !! x.1 = None) (Dict.items counter)).

(** [for w, _ in missing: token2id[w] = len(token2id)] *)
Definition assign_ids (token2id : gmap string nat)
    (missing : list (string * nat)) : gmap string nat :=
  foldl (λ token2id x, <[x.1 := size token2id]> token2id) token2id missing.

(** [{token2id[w]: freq for w, freq in counter.items() if w in token2id}] *)
Definition bow (counter : gmap string nat) (token2id : gmap string nat)
    : gmap nat nat :=
  Dict.of_pairs
    (omap (λ x, (λ i, (i, x.2)) <$> token2id !! x.1) (Dict.items counter)).

(** [m[k] = m.get(k, 0) + v] *)
Definition add_to (m : gmap nat nat) (k v : nat) : gmap nat nat :=
  <[k := default 0 (m !! k) + v]> m.

(** [dictionary.doc2bow(document, allow_update)]: the state of the object
    after the call and the returned list of pairs, in ascending id order. *)
Definition doc2bow (d : Dictionary) (document : document)
    (allow_update : bool) : result (Dictionary * list (nat * nat)) :=
  counter ← count_words document;
  let token2id' :=
    if allow_update then assign_ids (token2id d) (missing counter (token2id d))
    else token2id d in
  let result := bow counter token2id' in
  let d' :=
    if allow_update then
      {| token2id := token2id';
         id2token := id2token d;
         cfs := foldl (λ m kv, add_to m kv.1 kv.2) (cfs d) (Dict.items result);
         dfs := foldl (λ m kv, add_to m kv.1 1) (dfs d) (Dict.items result);
         num_docs := num_docs d + 1;
         num_pos := num_pos d + sum_list (Dict.values counter);
         num_nnz := num_nnz d + size result |}
    else d in
  Return (d', merge_sort by_id (Dict.items result)).

(** [dictionary.add_documents(documents)] for a dictionary that stays below
    [prune_at] (two million words), the size at which gensim starts to drop
    rare words to bound its memory. *)
Definition add_documents (d : Dictionary) (documents : list document)
    : result Dictionary :=
  for_each (λ d document, fst <$> doc2bow d document true) documents d.

(** [dict(zip(sorted(token2id.values()), range(len(token2id))))]: an old id
    is sent to its position in the sorted list of the ids in use. *)
Definition idmap_of (token2id : gmap string nat) : gmap nat nat :=
  Dict.of_pairs
    (zip (merge_sort (≤) (Dict.values token2id)) (seq 0 (size token2id))).

(** [dictionary.compactify()]: the ids are renumbered by their rank.  The
    comprehensions over [dfs] and [cfs] look every old id up in [idmap]. *)
Definition compactify (d : Dictionary) : result Dictionary :=
  let idmap := idmap_of (token2id d) in
  token2id' ← Dict.comprehend
    (λ kv : string * nat, i ← Dict.getitem idmap kv.2; Return (kv.1, i))
    (token2id d);
  dfs' ← Dict.comprehend
    (λ kv : nat * nat, i ← Dict.getitem idmap kv.1; Return (i, kv.2)) (dfs d);
  cfs' ← Dict.comprehend
    (λ kv : nat * nat, i ← Dict.getitem idmap kv.1; Return (i, kv.2)) (cfs d);
  Return {| token2id := token2id'; id2token := ∅; cfs := cfs'; dfs := dfs';
            num_docs := num_docs d; num_pos := num_pos d;
            num_nnz := num_nnz d |}.

(** [dictionary.filter_tokens(bad_ids)]: the listed ids are dropped from the
    three mappings, then the ids are compacted. *)
Definition filter_tokens (d : Dictionary) (bad_ids : list nat)
    : result Dictionary :=
  let bad_ids : gset nat := list_to_set bad_ids in
  compactify
    {| token2id := filter (λ kv, kv.2 ∉ bad_ids) (token2id d);
       id2token := id2token d;
       cfs := filter (λ kv, kv.1 ∉ bad_ids) (cfs d);
       dfs := filter (λ kv, kv.1 ∉ bad_ids) (dfs d);
       num_docs := num_docs d; num_pos := num_pos d; num_nnz := num_nnz d |}.

End Gensim.
Export Gensim.

(** ** Objects and references *)

(** A [Dictionary] is reached through a reference; its methods change the
    object the reference points at.  Every reference a program holds points
    at a live object, so reading one is total. *)
Definition loc : Type := nat.
Abbreviation heap := (gmap loc Dictionary).

Definition deref (h : heap) (r : loc) : Dictionary := h !!! r.

(** A method that updates the object in place. *)
Definition call_method (r : loc) (method : Dictionary → result Dictionary)
    (h : heap) : result heap :=
  d ← method (deref h r); Return (<[r := d]> h).

(** ** The functions of the module *)

(** [sorted(l, key=key)]: stable, by insertion from the right. *)
Fixpoint insert_sorted {A : Type} (key : A → Z) (x : A) (l : list A)
    : list A :=
  match l with
  | [] => [x]
  | y :: l' =>
      if (key y <? key x)%Z then y :: insert_sorted key x l' else x :: l
  end.
Definition sorted {A : Type} (key : A → Z) (l : list A) : list A :=
  foldr (insert_sorted key) [] l.

(** [l[index]] *)
Definition list_getitem {A : Type} (l : list A) (index : nat) : result A :=
  match l !! index with
  | Some x => Return x
  | None => Raise IndexError
  end.

(** An element of the allow-list of [sub_vocabulary]: a term or an id. *)
Inductive key : Type :=
  | Term (token : string)
  | Id (tokenid : nat).

Definition terms_of (l : list key) : list string :=
  omap (λ k, match k with Term t => Some t | Id _ => None end) l.
Definition ids_of (l : list key) : list nat :=
  omap (λ k, match k with Id i => Some i | Term _ => None end) l.

(** What [sub_vocabulary] prints on standard error. *)
Inductive notice : Type :=
  | LoadExisting
  | TokensRemoved (count : nat)
  | SubDictionaryCreated.

(** What a call may hand back: [None], or the pair of a document-id list
    and a corpus. *)
Inductive returned : Type :=
  | PyNone
  | PyPair (docs_ids : list Z) (corpus : list (list (nat * nat))).

(** A sparse matrix as [scipy] holds it: its shape and its rows. *)
Record sparse : Type := {
  shape : nat * nat;
  rows : list (list (nat * nat));
}.

(** [corpus2csc(corpus, num_terms=num_terms).transpose()]: one row per
    document, [num_terms] columns. *)
Definition corpus2csc_transpose (corpus : list (list (nat * nat)))
    (num_terms : nat) : sparse :=
  {| shape := (length corpus, num_terms); rows := corpus |}.

(** [matrix[indice, :]] *)
Definition take_rows (m : sparse) (indice : list nat) : result sparse :=
  picked ← comprehension (list_getitem (rows m)) indice;
  Return {| shape := (length indice, (shape m).2); rows := picked |}.

(** [np.argsort(docs_ids)]; numpy leaves the order of equal ids open, the
    model keeps them in their input order. *)
Definition argsort (docs_ids : list Z) : list nat :=
  (sorted snd (imap (λ i x, (i, x)) docs_ids)).*1.

Section Functions.
Context `{nltk : NLTK}.

(** [vocabulary(text_iter_obj, min_term_freq, n, pad_right, pad_left,
    left_pad_symbol, right_pad_symbol)].  The dictionary is a new object;
    the value returned is its final state.  [corpora.Dictionary(docs)] pulls
    the documents one by one; running the stream to its end first gives the
    same dictionary. *)
Definition vocabulary (text_iter_obj : list string) (min_term_freq : Z)
    (n : nat) (p : padding) : result Dictionary :=
  let docs := Documents_init text_iter_obj n p false true in
  dictionary ← add_documents Gensim.empty (yielded (Documents_iter docs));
  let nonchar_ids :=
    (filter (λ kv, ¬ re_match_alpha kv.1)
       (Dict.six_iteritems (token2id dictionary))).*2 in
  let lowfreq_ids :=
    (filter (λ kv, (Z.of_nat kv.2 ≤ min_term_freq)%Z)
       (Dict.six_iteritems (dfs dictionary))).*1 in
  dictionary ← filter_tokens dictionary (lowfreq_ids ++ nonchar_ids);
  compactify dictionary.

(** [corpus(text_iter_obj, dictionary, n, ...)] *)
Definition corpus (text_iter_obj : list string) (dictionary : Dictionary)
    (n : nat) (p : padding) : result (list (list (nat * nat))) :=
  let docs := Documents_init text_iter_obj n p false true in
  comprehension (λ doc, snd <$> doc2bow dictionary doc false)
    (yielded (Documents_iter docs)).

End Functions.

(** [sub_vocabulary(dictionary, ngrams_list, by_key)]: the reference
    returned, the heap after the call and what was printed. *)
Definition sub_vocabulary (dictionary : loc) (ngrams_list : list key)
    (by_key : bool) (h : heap) : result (loc * heap * list notice) :=
  let d := deref h dictionary in
  removed ←
    (if by_key then
       let remove_tokens : list nat :=
         elements ((list_to_set (Gensim.keys d) : gset nat)
                   ∖ list_to_set (ids_of ngrams_list)) in
       Return (length remove_tokens, remove_tokens)
     else
       let remove_tokens : list string :=
         elements ((list_to_set (Dict.keys (token2id d)) : gset string)
                   ∖ list_to_set (terms_of ngrams_list)) in
       remove_ids ← comprehension (Dict.getitem (token2id d)) remove_tokens;
       Return (length remove_tokens, remove_ids));
  let '(count, remove_ids) := removed in
  h ← call_method dictionary (λ d, filter_tokens d remove_ids) h;
  h ← call_method dictionary compactify h;
  Return (dictionary, h, [LoadExisting; TokensRemoved count;
                          SubDictionaryCreated]).

(** [merge_documents(corpus, dictionary, docs_ids)]: the shape it prints and
    the value it returns.  The body ends after the [print]; a Python
    function that ends without [return] returns [None]. *)
Definition merge_documents (corpus : list (list (nat * nat)))
    (dictionary : Dictionary) (docs_ids : list Z)
    : result (nat * nat * returned) :=
  let ordered_indice := argsort docs_ids in
  reordered_docs_ids ← comprehension (list_getitem docs_ids) ordered_indice;
  let sparse_corpus := corpus2csc_transpose corpus (Gensim.len dictionary) in
  reordered_sparse_corpus ← take_rows sparse_corpus ordered_indice;
  Return (shape reordered_sparse_corpus, PyNone).

(** Lines 265-266: the weights of one document are appended to the lists
    of their terms; [ngram_dist] is a [defaultdict] of lists. *)
Definition collect_weights (dictionary : Dictionary)
    (ngram_dist : gmap string (list Z)) (doc : list (nat * Z))
    : result (gmap string (list Z)) :=
  for_each
    (λ (ngram_dist : gmap string (list Z)) (x : nat * Z),
       ngram ← Gensim.getitem dictionary x.1;
       Return (<[ngram := default [] (ngram_dist !! ngram) ++ [x.2]]>
                 ngram_dist))
    doc ngram_dist.

(** [corpus_histogram(corpus, dictionary, sort_by, show=False, N)] over a
    given reading of the method [iteritems] of [ngram_dist].  Weights are
    integers here. *)
Definition corpus_histogram_with
    (iteritems : gmap string (list Z) → result (list (string * list Z)))
    (corpus : list (list (nat * Z))) (dictionary : Dictionary)
    (sort_by : string) (N : nat)
    : result (gmap string (list Z) * list (string * Z)) :=
  let sorted_corpus :=
    (λ doc : list (nat * Z), sorted (λ x, (- x.2)%Z) doc) <$> corpus in
  ngram_dist ← for_each (collect_weights dictionary) sorted_corpus ∅;
  pairs ← iteritems ngram_dist;
  let lowfreq_ngrams :=
    (filter (λ kv : string * list Z, length kv.2 < 2) pairs).*1 in
  ngram_dist ← for_each
    (λ (ngram_dist : gmap string (list Z)) ngram,
       snd <$> Dict.pop ngram_dist ngram)
    lowfreq_ngrams ngram_dist;
  sort_target ←
    (if decide (sort_by = "count") return result (list (string * Z)) then
       fmap (M:=list) (λ kv : string * list Z, (kv.1, Z.of_nat (length kv.2)))
         <$> iteritems ngram_dist
     else if decide (sort_by = "weighted_sum")
             return result (list (string * Z)) then
       fmap (M:=list) (λ kv : string * list Z, (kv.1, foldr Z.add 0%Z kv.2))
         <$> iteritems ngram_dist
     else Return []);
  let sorted_ngram := take N (sorted (λ x, (- x.2)%Z) sort_target) in
  Return (ngram_dist, sorted_ngram).

(** [corpus_histogram] as the interpreter runs it. *)
Definition corpus_histogram := corpus_histogram_with Dict.iteritems.

Definition fox_line : string := "The quick fox. The lazy dog.".


(** ** Definitions that follow the specification *)

(** The tokens of a document, sentence after sentence. *)
Definition flatten (doc : document) : list string :=
  it ← doc; match it with Str s => [s] | Lst l => l end.

(** A pad symbol is supplied on every side that is padded. *)
Definition symbols_given (p : padding) : Prop :=
  (pad_left p → is_Some (left_pad_symbol p))
  ∧ (pad_right p → is_Some (right_pad_symbol p)).

Global Instance symbols_given_dec p : Decision (symbols_given p).
Proof. unfold symbols_given. apply _. Defined.

(** The padded sentence when the pad symbols are strings. *)
Definition padded (tokens : list string) (n : nat) (p : padding)
    : list string :=
  (if pad_left p
   then replicate (n - 1) (default EmptyString (left_pad_symbol p)) else [])
  ++ tokens
  ++ (if pad_right p
      then replicate (n - 1) (default EmptyString (right_pad_symbol p))
      else []).

(** The n-gram expansion of the specification: for each gram order from 1
    to [N], in increasing order, the sliding n-grams of the sentence, each
    joined with an underscore. *)
Definition ngram_expansion (tokens : list string) (N : nat) (p : padding)
    : list string :=
  n ← seq 1 N;
  Str.join (String Str.underscore EmptyString) <$> windows n (padded tokens n p).

Section StreamSpec.
Context `{nltk : NLTK}.

(** What the stream yields for a line: its tokens, or the empty document
    when tokenization raises. *)
Definition outcome (self : Documents) (line : string) : document :=
  match tokenize self line with
  | Return doc => doc
  | Raise _ => []
  end.

(** What the stream prints at the line of ordinal index [i]. *)
Definition notices (self : Documents) (i : nat) (line : string)
    : list event :=
  (if (0 <? i) && (i mod 1000 =? 0) then [Progress i] else [])
  ++ match tokenize self line with
     | Return _ => []
     | Raise e => [PrintLine line; Failure i e]
     end.

End StreamSpec.

(** ** Vocabularies *)

(** The ids in use. *)
Definition ids (d : Dictionary) : gset nat := map_img (token2id d).

(** The ids are exactly 0, 1, ..., k-1 for k terms. *)
Definition compact (d : Dictionary) : Prop :=
  ids d = set_seq 0 (size (token2id d)).

(** No two terms share an id, and frequencies are kept of ids in use
    only. *)
Record well_formed (d : Dictionary) : Prop := {
  wf_inj : ∀ t1 t2 i,
    token2id d !! t1 = Some i → token2id d !! t2 = Some i → t1 = t2;
  wf_dfs : ∀ i, is_Some (dfs d !! i) → i ∈ ids d;
  wf_cfs : ∀ i, is_Some (cfs d !! i) → i ∈ ids d;
}.

(** [d'] holds the terms of [d], each with the frequency it has in [d]. *)
Definition same_terms (d d' : Dictionary) : Prop :=
  (∀ t, is_Some (token2id d' !! t) ↔ is_Some (token2id d !! t))
  ∧ (∀ t i j, token2id d !! t = Some i → token2id d' !! t = Some j →
       dfs d' !! j = dfs d !! i).

(** A term-to-id mapping without shared ids whose ids are 0, ..., k-1. *)
Definition dense (m : gmap string nat) : Prop :=
  (∀ t1 t2 i, m !! t1 = Some i → m !! t2 = Some i → t1 = t2)
  ∧ (map_img m : gset nat) = set_seq 0 (size m).

(** The term [t] with id [i] is on the allow-list of [sub_vocabulary]. *)
Definition allowed (ngrams_list : list key) (by_key : bool) (t : string)
    (i : nat) : Prop :=
  if by_key then Id i ∈ ngrams_list else Term t ∈ ngrams_list.

Global Instance key_eq_dec : EqDecision key.
Proof. solve_decision. Defined.

Global Instance allowed_dec l by_key t i : Decision (allowed l by_key t i).
Proof. unfold allowed. destruct by_key; apply _. Defined.

(** The document frequency of a term: the number of documents of the stream
    in which it occurs. *)
Definition docfreq (t : string) (docs : list document) : nat :=
  length (filter (λ doc, Str t ∈ doc) docs).

(** The dictionary [d] is the one built from the documents [docs]: it holds
    the terms that occur in them, with their document frequencies. *)
Record tracks (docs : list document) (d : Dictionary) : Prop := {
  tr_wf : well_formed d;
  tr_compact : compact d;
  tr_terms : ∀ t, is_Some (token2id d !! t) ↔ 0 < docfreq t docs;
  tr_dfs : ∀ t i, token2id d !! t = Some i →
    dfs d !! i = Some (docfreq t docs);
}.

(** A flat document: every item is a token. *)
Definition flat (doc : document) : Prop := ∃ tokens, doc = Str <$> tokens.

(** The characters of a string. *)
Fixpoint chars (s : string) : list ascii :=
  match s with
  | EmptyString => []
  | String c s' => c :: chars s'
  end.

(** ** Histograms *)

(** The number of weights a corpus holds for a term. *)
Definition occurrences (dictionary : Dictionary) (term : string)
    (pairs : list (nat * Z)) : nat :=
  length (filter (λ x, Gensim.getitem dictionary x.1 = Return term) pairs).

(** [iteritems] as a Python 2 dictionary has it. *)
Definition python2_iteritems (d : gmap string (list Z))
    : result (list (string * list Z)) :=
  Return (Dict.items d).

(** ** Sample inputs *)

Definition pet_lines : list string := ["cat dog"; "dog bird"].

(** The vocabulary of [pet_lines] with no frequency threshold, built with
    the reference tokenizers: cat, dog and bird. *)
Definition pet_vocabulary : Dictionary :=
  match @vocabulary Reference.nltk pet_lines 0 1 no_padding with
  | Return d => d
  | Raise _ => Gensim.empty
  end.

Definition pet_heap : heap := {[ 0 := pet_vocabulary ]}.

(** The words the reference tokenizers keep of a sentence. *)
Definition kept_words (sent : string) : list string :=
  match @tokens_of_sentence Reference.nltk sent with
  | Return tokens => tokens
  | Raise _ => []
  end.

(** ** Further specification-level notions *)

(** Padding is requested on a side for which no pad symbol is supplied. *)
Definition missing_symbol (p : padding) : Prop :=
  (pad_left p ∧ left_pad_symbol p = None)
  ∨ (pad_right p ∧ right_pad_symbol p = None).

Global Instance missing_symbol_dec p : Decision (missing_symbol p).
Proof. unfold missing_symbol. apply _. Defined.

(** The number of sides that are padded. *)
Definition padded_sides (p : padding) : nat :=
  (if pad_left p then 1 else 0) + (if pad_right p then 1 else 0).

(** A line of white space only. *)
Definition blank (line : string) : Prop :=
  Forall (λ c, Str.isspace c) (chars line).

Global Instance blank_dec line : Decision (blank line).
Proof. unfold blank. apply _. Defined.

(** The number of occurrences of a token in a token list. *)
Definition count (w : string) (tokens : list string) : nat :=
  length (filter (w =.) tokens).

(** * Verification *)

(** ** Loops and comprehensions *)

Section Loops.
Context {A S : Type}.

Lemma for_each_app (body : S → A → result S) l1 l2 s :
  for_each body (l1 ++ l2) s = s' ← for_each body l1 s; for_each body l2 s'.
Proof.
  revert s. induction l1 as [|x l1 IH]; intros s; simpl; [done|].
  destruct (body s x) as [s'|e]; simpl; [apply IH | done].
Qed.

(** An invariant of the loop body holds of the state the loop returns. *)
Lemma for_each_invariant (P : S → Prop) (body : S → A → result S) l s s' :
  (∀ s x s', P s → x ∈ l → body s x = Return s' → P s') →
  P s → for_each body l s = Return s' → P s'.
Proof.
  revert s. induction l as [|x l IH]; intros s Hstep Hs Hrun; simpl in Hrun.
  - by simplify_eq.
  - destruct (body s x) as [s1|e] eqn:Hb; simpl in Hrun; [|done].
    apply (IH s1); [|by eapply Hstep; [| left |]|done].
    intros s2 y s3 ? ? ?. eapply Hstep; [done | by right | done].
Qed.

(** A body that never raises makes the loop a left fold. *)
Lemma for_each_pure (body : S → A → result S) (f : S → A → S) l s :
  (∀ s x, x ∈ l → body s x = Return (f s x)) →
  for_each body l s = Return (foldl f s l).
Proof.
  revert s. induction l as [|x l IH]; intros s Hb; simpl; [done|].
  rewrite Hb by left. simpl. apply IH. intros; apply Hb. by right.
Qed.

End Loops.

Lemma elem_of_concat {A : Type} (x : A) (ls : list (list A)) :
  x ∈ concat ls ↔ ∃ l, x ∈ l ∧ l ∈ ls.
Proof.
  induction ls as [|l ls IH]; simpl.
  - split; [by intros ?%elem_of_nil | by intros (l & _ & ?%elem_of_nil)].
  - rewrite elem_of_app, IH. split.
    + intros [Hx|(l' & Hx & Hl')]; [exists l | exists l'];
        (split; [done|]); [by left | by right].
    + intros (l' & Hx & [->|Hl']%elem_of_cons); [by left|right; eauto].
Qed.

Lemma comprehension_pure {A B : Type} (f : A → result B) (g : A → B) l :
  (∀ x, x ∈ l → f x = Return (g x)) →
  comprehension f l = Return (g <$> l).
Proof.
  induction l as [|x l IH]; intros Hf; simpl; [done|].
  rewrite Hf by left. simpl. rewrite IH; [done|].
  intros; apply Hf. by right.
Qed.

(** ** The n-gram loop *)

Lemma pad_sequence_given tokens n p :
  symbols_given p → pad_sequence tokens n p = Some <$> padded tokens n p.
Proof.
  intros [Hl Hr]. unfold pad_sequence, padded.
  rewrite !fmap_app. f_equal; [|f_equal].
  - destruct (pad_left p); [|done].
    destruct Hl as [x ->]; [done|]. simpl. by rewrite fmap_replicate.
  - destruct (pad_right p); [|done].
    destruct Hr as [x ->]; [done|]. simpl. by rewrite fmap_replicate.
Qed.

Lemma windows_fmap {A B : Type} (f : A → B) n (l : list A) :
  windows n (f <$> l) = fmap (M:=list) f <$> windows n l.
Proof.
  induction l as [|x l IH]; [done|].
  cbn [windows fmap list_fmap]. rewrite !length_cons, length_fmap.
  destruct (decide (n ≤ S (length l))); [|done].
  cbn [fmap list_fmap]. rewrite <-IH. f_equal.
  change (f x :: list_fmap A B f l) with (f <$> x :: l).
  by rewrite fmap_take.
Qed.

Lemma join_items_Some sep (ws : list string) :
  Str.join_items sep (Some <$> ws) = Return (Str.join sep ws).
Proof.
  unfold Str.join_items.
  assert (mapM id (Some <$> ws) = Some ws) as ->; [|done].
  apply mapM_Some. induction ws; constructor; done.
Qed.

Lemma ith_gram_tokens_given tokens n p :
  symbols_given p →
  ith_gram_tokens tokens n p
  = Return (Str.join (String Str.underscore EmptyString)
              <$> windows n (padded tokens n p)).
Proof.
  intros Hp. unfold ith_gram_tokens, ngrams.
  rewrite pad_sequence_given, windows_fmap by done.
  rewrite (comprehension_pure _
    (λ t, default EmptyString (Str.join (String Str.underscore EmptyString)
                                 <$> mapM id t))).
  - f_equal. rewrite <-list_fmap_compose. apply list_fmap_ext.
    intros i ws _. simpl.
    assert (mapM id (Some <$> ws) = Some ws) as ->; [|done].
    apply mapM_Some. induction ws; constructor; done.
  - intros t [ws [-> _]]%list_elem_of_fmap. rewrite join_items_Some.
    assert (mapM id (Some <$> ws) = Some ws) as ->; [|done].
    apply mapM_Some. induction ws; constructor; done.
Qed.

Lemma gram_loop_given tokens N p acc :
  symbols_given p →
  gram_loop tokens N p acc
  = Return (acc ++ ngram_expansion tokens N p, ngram_expansion tokens N p).
Proof.
  intros Hp. unfold gram_loop, ngram_expansion, range1.
  assert (∀ ns acc sent,
    for_each
      (λ '(ngram_tokens, ngram_tokens_in_sentence) n,
         ith ← ith_gram_tokens tokens n p;
         Return (ngram_tokens ++ ith, ngram_tokens_in_sentence ++ ith))
      ns (acc, sent)
    = Return
        (acc ++ (n ← ns; Str.join (String Str.underscore EmptyString)
                          <$> windows n (padded tokens n p)),
         sent ++ (n ← ns; Str.join (String Str.underscore EmptyString)
                           <$> windows n (padded tokens n p)))) as Hloop.
  { induction ns as [|n ns IH]; intros acc' sent; simpl.
    - by rewrite !app_nil_r.
    - rewrite ith_gram_tokens_given by done. simpl.
      rewrite IH. by rewrite <-!(assoc_L (++)). }
  by rewrite Hloop.
Qed.

(** ** The tokenizer *)

Section Tokenizer.
Context `{nltk : NLTK}.

(** The sentence loop when the library calls return and the pad symbols are
    supplied: one n-gram expansion per sentence. *)
Lemma sentence_loop_given text N p sents (toks : string → list string) :
  symbols_given p →
  sent_tokenize (clean_line text) = Return sents →
  (∀ s, s ∈ sents → tokens_of_sentence s = Return (toks s)) →
  sentence_loop text N p
  = Return (concat ((λ s, ngram_expansion (toks s) N p) <$> sents),
            (λ s, ngram_expansion (toks s) N p) <$> sents).
Proof.
  intros Hp Hs Ht. unfold sentence_loop. rewrite Hs. simpl.
  rewrite (for_each_pure _
    (λ st s, (st.1 ++ ngram_expansion (toks s) N p,
              st.2 ++ [ngram_expansion (toks s) N p]))).
  - f_equal.
    assert (∀ l (a : list string) (b : list (list string)),
      foldl (λ st s, (st.1 ++ ngram_expansion (toks s) N p,
                      st.2 ++ [ngram_expansion (toks s) N p])) (a, b) l
      = (a ++ concat ((λ s, ngram_expansion (toks s) N p) <$> l),
         b ++ ((λ s, ngram_expansion (toks s) N p) <$> l))) as Hfold.
    { induction l as [|s l IH]; intros a b; simpl.
      - by rewrite !app_nil_r.
      - rewrite IH. simpl. by rewrite <-!(assoc_L (++)). }
    by rewrite Hfold.
  - intros [a b] s Hin. rewrite (Ht s Hin). simpl.
    rewrite gram_loop_given by done. done.
Qed.

(** The two return values of the sentence loop agree up to flattening. *)
Lemma sentence_loop_concat text N p ngram_tokens ngram_tokens_sents :
  sentence_loop text N p = Return (ngram_tokens, ngram_tokens_sents) →
  ngram_tokens = concat ngram_tokens_sents.
Proof.
  unfold sentence_loop. destruct (sent_tokenize _) as [sents|e]; [|done].
  simpl. intros Hrun.
  apply (for_each_invariant (λ st, st.1 = concat st.2)) in Hrun; [done| |done].
  clear. intros [a b] sent [a' b'] Hinv _. simpl in Hinv. subst a.
  destruct (tokens_of_sentence sent) as [toks|e]; [|done]. simpl.
  unfold gram_loop.
  destruct (for_each _ (range1 N) (concat b, [])) as [[g1 g2]|e] eqn:Hg;
    [|done].
  simpl. intros [= <- <-]. simpl.
  apply (for_each_invariant (λ st, st.1 = concat b ++ st.2)) in Hg.
  - simpl in Hg. rewrite Hg, concat_app. simpl. by rewrite app_nil_r.
  - clear. intros [a c] n [a' c'] Hinv _. simpl in Hinv. subst a.
    destruct (ith_gram_tokens toks n p) as [ith|e]; [|done]. simpl.
    intros [= <- <-]. simpl. by rewrite (assoc_L (++)).
  - simpl. by rewrite app_nil_r.
Qed.

Lemma flatten_Str (tokens : list string) : flatten (Str <$> tokens) = tokens.
Proof.
  unfold flatten. induction tokens as [|t l IH]; [done|].
  cbn. cbn in IH. by rewrite IH.
Qed.

Lemma flatten_Lst (sents : list (list string)) :
  flatten (Lst <$> sents) = concat sents.
Proof.
  unfold flatten. induction sents as [|t l IH]; [done|].
  cbn. cbn in IH. by rewrite IH.
Qed.

(** C10: the two return shapes of the tokenizer agree up to flattening.  For
    every text, n-gram order and padding, either both modes raise the same
    exception, or the sentence-structured mode returns the list of the
    sentences' token lists and the flat mode returns their concatenation in
    sentence order. *)
Theorem string2tokens_flat_is_concat text N p :
  (∃ e, string2tokens text N p true = Raise e
        ∧ string2tokens text N p false = Raise e)
  ∨ (∃ sents, string2tokens text N p true = Return (Lst <$> sents)
              ∧ string2tokens text N p false = Return (Str <$> concat sents)
              ∧ flatten (Lst <$> sents) = flatten (Str <$> concat sents)).
Proof.
  unfold string2tokens.
  destruct (sentence_loop text N p) as [[toks sents]|e] eqn:Hloop.
  - right. exists sents. simpl.
    apply sentence_loop_concat in Hloop as ->.
    by rewrite flatten_Str, flatten_Lst.
  - left. by exists e.
Qed.

(** C7: with the sentences found by the sentence tokenizer and the words
    kept of each sentence, and for any padding whose symbols are supplied,
    the tokenizer emits per sentence the n-grams of the orders 1 to [N] in
    increasing order, each joined with an underscore; the loop over the
    orders turns the tokens quick, fox with [N = 2] and no padding into
    quick, fox, quick_fox. *)
Theorem string2tokens_ngram_expansion :
  (∀ text N p sents (toks : string → list string),
     1 ≤ N →
     symbols_given p →
     sent_tokenize (clean_line text) = Return sents →
     (∀ s, s ∈ sents → tokens_of_sentence s = Return (toks s)) →
     string2tokens text N p true
     = Return (Lst <$> ((λ s, ngram_expansion (toks s) N p) <$> sents)))
  ∧ (∀ tokens N p acc,
       1 ≤ N →
       symbols_given p →
       gram_loop tokens N p acc
       = Return (acc ++ ngram_expansion tokens N p,
                 ngram_expansion tokens N p))
  ∧ gram_loop ["quick"; "fox"] 2 no_padding []
    = Return (["quick"; "fox"; "quick_fox"], ["quick"; "fox"; "quick_fox"]).
Proof.
  split; [|split].
  - intros text N p sents toks _ Hp Hs Ht. unfold string2tokens.
    by rewrite (sentence_loop_given _ _ _ sents toks).
  - intros tokens N p acc _ Hp. by apply gram_loop_given.
  - reflexivity.
Qed.

End Tokenizer.

Section FoxLine.
Context `{nltk : NLTK}.

Lemma tokens_of_sentence_filtered sent words stop :
  word_tokenize (Str.lower (Str.remove_punctuation sent)) = Return words →
  stopwords_english = Return stop →
  tokens_of_sentence sent
  = Return (filter (λ token, token ∉ stop) words).
Proof.
  intros Hw Hs. unfold tokens_of_sentence. rewrite Hw. simpl.
  rewrite Hs. clear Hw.
  induction words as [|w ws IH]; [done|].
  cbn [comprehension_if]. simpl. simpl in IH. rewrite IH. simpl.
  rewrite filter_cons. destruct (decide (w ∉ stop)) as [Hw|Hw].
  - by rewrite bool_decide_false.
  - rewrite bool_decide_true; [done|]. by apply dec_stable.
Qed.

(** C8: when NLTK splits the line into its two sentences and each cleaned
    sentence into its three words, and its English stop words hold "the"
    but none of the other four words, the flat tokenization of the line with
    [N = 1] and the default padding is exactly quick, fox, lazy, dog. *)
Theorem string2tokens_fox_line stop :
  sent_tokenize "The quick fox. The lazy dog."
  = Return ["The quick fox."; "The lazy dog."] →
  word_tokenize "the quick fox" = Return ["the"; "quick"; "fox"] →
  word_tokenize "the lazy dog" = Return ["the"; "lazy"; "dog"] →
  stopwords_english = Return stop →
  "the" ∈ stop →
  "quick" ∉ stop → "fox" ∉ stop → "lazy" ∉ stop → "dog" ∉ stop →
  string2tokens fox_line 1 no_padding false
  = Return [Str "quick"; Str "fox"; Str "lazy"; Str "dog"].
Proof.
  intros Hsent Hw1 Hw2 Hstop Hthe Hquick Hfox Hlazy Hdog.
  unfold string2tokens.
  rewrite (sentence_loop_given _ _ _ ["The quick fox."; "The lazy dog."]
    (λ s, if decide (s = "The quick fox.") then ["quick"; "fox"]
          else ["lazy"; "dog"])).
  - reflexivity.
  - by vm_compute.
  - exact Hsent.
  - intros s Hs.
    apply elem_of_cons in Hs as [->|Hs];
      [|apply list_elem_of_singleton in Hs as ->].
    + rewrite (tokens_of_sentence_filtered _ ["the"; "quick"; "fox"] stop)
        by done.
      rewrite !filter_cons, filter_nil.
      rewrite decide_False by (intros Hn; by apply Hn).
      by rewrite !decide_True by done.
    + rewrite (tokens_of_sentence_filtered _ ["the"; "lazy"; "dog"] stop)
        by done.
      rewrite !filter_cons, filter_nil.
      rewrite decide_False by (intros Hn; by apply Hn).
      by rewrite !decide_True by done.
Qed.

End FoxLine.

(** The fox line under the reference tokenizers. *)
Lemma string2tokens_fox_line_reference :
  @string2tokens Reference.nltk fox_line 1 no_padding false
  = Return [Str "quick"; Str "fox"; Str "lazy"; Str "dog"].
Proof.
  apply (@string2tokens_fox_line Reference.nltk Reference.stop_list);
    try reflexivity; apply (bool_decide_unpack _); vm_compute; exact I.
Defined.

(** ** The document stream *)

Section Stream.
Context `{nltk : NLTK}.

Lemma tokenize_set_counter self c line :
  tokenize (set_counter self c) line = tokenize self line.
Proof. done. Qed.

Lemma set_counter_same self : set_counter self (counter self) = self.
Proof. by destruct self. Qed.

Lemma outcome_set_counter self c : outcome (set_counter self c) = outcome self.
Proof. done. Qed.

Lemma notices_set_counter self c : notices (set_counter self c) = notices self.
Proof. done. Qed.

Lemma iter_step_self st line :
  self_now (iter_step st line)
  = set_counter (self_now st) (S (counter (self_now st))).
Proof. unfold iter_step. by destruct (tokenize _ _). Qed.

Lemma iter_step_yielded st line :
  yielded (iter_step st line) = yielded st ++ [outcome (self_now st) line].
Proof. unfold iter_step, outcome. by destruct (tokenize _ _). Qed.

Lemma iter_step_printed st line :
  printed (iter_step st line)
  = printed st ++ notices (self_now st) (counter (self_now st)) line.
Proof. unfold iter_step, notices. by destruct (tokenize _ _). Qed.

(** The loop of [__iter__] from any state: one document per line, the
    counter advanced by the number of lines, the notices of each line at its
    own count. *)
Lemma iter_loop st lines :
  foldl iter_step st lines
  = {| self_now :=
         set_counter (self_now st) (counter (self_now st) + length lines);
       yielded := yielded st ++ (outcome (self_now st) <$> lines);
       printed :=
         printed st
         ++ concat (imap (λ i, notices (self_now st)
                                 (counter (self_now st) + i)) lines) |}.
Proof.
  revert st. induction lines as [|line lines IH]; intros st.
  - destruct st as [self ys ps]. simpl.
    by rewrite Nat.add_0_r, set_counter_same, !app_nil_r.
  - cbn [foldl]. rewrite IH.
    rewrite iter_step_self, iter_step_yielded, iter_step_printed.
    rewrite outcome_set_counter, notices_set_counter.
    cbn [length fmap list_fmap imap concat].
    rewrite Nat.add_0_r, <-!(assoc_L (++)). f_equal.
    + unfold set_counter. cbn [counter n doc_padding keep_sents is_tokenzied
                               iter_object]. f_equal. lia.
    + do 3 f_equal. apply imap_ext. intros i l _.
      cbn [counter set_counter compose]. f_equal. lia.
Qed.

Lemma Documents_iter_yielded self :
  yielded (Documents_iter self) = outcome self <$> iter_object self.
Proof. unfold Documents_iter. by rewrite iter_loop. Qed.

Lemma Documents_iter_printed self :
  printed (Documents_iter self)
  = concat (imap (λ i, notices self (counter self + i)) (iter_object self)).
Proof. unfold Documents_iter. by rewrite iter_loop. Qed.

(** The failures a pass prints: one for each line whose tokenization
    raises, numbered with the counter of the stream at that line. *)
Lemma Documents_iter_failures self k e :
  Failure k e ∈ printed (Documents_iter self)
  ↔ ∃ j l, iter_object self !! j = Some l
           ∧ tokenize self l = Raise e
           ∧ k = counter self + j.
Proof.
  rewrite Documents_iter_printed, elem_of_concat. split.
  - intros (evs & Hk & Hin).
    apply list_elem_of_lookup in Hin as [j Hj].
    rewrite list_lookup_imap in Hj.
    destruct (iter_object self !! j) as [l|] eqn:Hl; [|done].
    injection Hj as <-. exists j, l. split; [done|].
    unfold notices in Hk. apply elem_of_app in Hk as [Hk|Hk].
    + destruct (_ && _); [|by apply elem_of_nil in Hk].
      by apply list_elem_of_singleton in Hk.
    + destruct (tokenize self l) as [doc|e']; [by apply elem_of_nil in Hk|].
      apply elem_of_cons in Hk as [Hk|Hk]; [done|].
      apply list_elem_of_singleton in Hk. by injection Hk as -> ->.
  - intros (j & l & Hj & He & ->).
    exists (notices self (counter self + j) l). split.
    + unfold notices. rewrite He. apply elem_of_app. right.
      apply elem_of_cons. right. by left.
    + apply list_elem_of_lookup. exists j.
      by rewrite list_lookup_imap, Hj.
Qed.

(** C1 (as amended): from any state of the stream, when the tokenization
    of the line of ordinal index [i] raises [e], the pass still yields one
    document for every line, in order: the empty document at position [i]
    and, at every position, the tokens of that line or the empty document.
    The offending line is printed, and the failure is printed with the
    counter of the stream at that line: the counter at the start of the
    pass plus [i], which is [i] itself in a fresh stream only.  No failure
    is printed with another number, and the pass leaves the counter
    advanced by the number of lines: nothing resets it. *)
Theorem Documents_iter_recovers self i line e :
  iter_object self !! i = Some line →
  tokenize self line = Raise e →
  yielded (Documents_iter self) !! i = Some []
  ∧ Failure (counter self + i) e ∈ printed (Documents_iter self)
  ∧ PrintLine line ∈ printed (Documents_iter self)
  ∧ length (yielded (Documents_iter self)) = length (iter_object self)
  ∧ (∀ j l, iter_object self !! j = Some l →
       yielded (Documents_iter self) !! j = Some (outcome self l))
  ∧ (∀ k e', Failure k e' ∈ printed (Documents_iter self)
       ↔ ∃ j l, iter_object self !! j = Some l
                ∧ tokenize self l = Raise e'
                ∧ k = counter self + j)
  ∧ counter (self_now (Documents_iter self))
    = counter self + length (iter_object self).
Proof.
  intros Hi He.
  split; [|split; [|split; [|split; [|split; [|split]]]]].
  - rewrite Documents_iter_yielded, list_lookup_fmap, Hi.
    cbn [fmap option_fmap option_map]. unfold outcome. by rewrite He.
  - apply Documents_iter_failures. by exists i, line.
  - rewrite Documents_iter_printed. apply elem_of_concat.
    exists (notices self (counter self + i) line). split.
    + unfold notices. rewrite He. apply elem_of_app. right. by left.
    + apply list_elem_of_lookup. exists i.
      by rewrite list_lookup_imap, Hi.
  - by rewrite Documents_iter_yielded, length_fmap.
  - intros j l Hj. by rewrite Documents_iter_yielded, list_lookup_fmap, Hj.
  - intros k e'. apply Documents_iter_failures.
  - unfold Documents_iter. by rewrite iter_loop.
Qed.

End Stream.

(** A line whose tokenization raises: with left padding and no left pad
    symbol the bigrams cannot be joined.  In the fresh stream the failure of
    the second line is printed with 1, in the second pass with 3. *)
Lemma Documents_iter_recovers_reference :
  let lines := ["The quick fox."; "The lazy dog."] in
  let p := Padding false true None None in
  let fresh := Documents_init lines 2 p false true in
  let again := self_now (@Documents_iter Reference.nltk fresh) in
  (iter_object again !! 1 = Some "The lazy dog."
   ∧ @tokenize Reference.nltk again "The lazy dog." = Raise TypeError)
  ∧ (yielded (@Documents_iter Reference.nltk fresh) !! 1 = Some []
     ∧ Failure 1 TypeError ∈ printed (@Documents_iter Reference.nltk fresh))
  ∧ (yielded (@Documents_iter Reference.nltk again) !! 1 = Some []
     ∧ Failure 3 TypeError ∈ printed (@Documents_iter Reference.nltk again)).
Proof.
  intros lines p fresh again.
  assert (iter_object again !! 1 = Some "The lazy dog.") as H1
    by reflexivity.
  assert (@tokenize Reference.nltk again "The lazy dog." = Raise TypeError)
    as H2 by reflexivity.
  split; [by split|]. split.
  - pose proof (@Documents_iter_recovers Reference.nltk fresh 1
                  "The lazy dog." TypeError H1 H2) as (Hy & Hf & _).
    split; [exact Hy | exact Hf].
  - pose proof (@Documents_iter_recovers Reference.nltk again 1
                  "The lazy dog." TypeError H1 H2) as (Hy & Hf & _).
    split; [exact Hy | exact Hf].
Defined.

(** C1 (the claim fails): the stream is iterated a second time over the
    same two lines.  The tokenization of the line of ordinal index 1 raises
    again and the empty document is yielded in its place, but its failure is
    printed with the number 3; nothing is printed with its index 1. *)
Lemma Documents_iter_second_pass_number :
  let lines := ["The quick fox."; "The lazy dog."] in
  let p := Padding false true None None in
  let first :=
    @Documents_iter Reference.nltk (Documents_init lines 2 p false true) in
  let second := @Documents_iter Reference.nltk (self_now first) in
  iter_object (self_now first) !! 1 = Some "The lazy dog."
  ∧ @tokenize Reference.nltk (self_now first) "The lazy dog."
    = Raise TypeError
  ∧ yielded second !! 1 = Some []
  ∧ printed second
    = [PrintLine "The quick fox."; Failure 2 TypeError;
       PrintLine "The lazy dog."; Failure 3 TypeError]
  ∧ (∀ e, Failure 1 e ∉ printed second).
Proof.
  intros lines p first second.
  assert (printed second
          = [PrintLine "The quick fox."; Failure 2 TypeError;
             PrintLine "The lazy dog."; Failure 3 TypeError]) as Hp
    by reflexivity.
  split; [reflexivity|]. split; [reflexivity|]. split; [reflexivity|].
  split; [exact Hp|].
  intros e Hin. rewrite Hp in Hin.
  repeat (apply elem_of_cons in Hin as [Hin|Hin]; [discriminate|]).
  by apply elem_of_nil in Hin.
Qed.

(** ** Merging documents *)

Lemma insert_sorted_Permutation {A : Type} (key : A → Z) x (l : list A) :
  insert_sorted key x l ≡ₚ x :: l.
Proof.
  induction l as [|y l IH]; simpl; [done|].
  destruct (key y <? key x)%Z; [|done].
  rewrite IH. apply Permutation_swap.
Qed.

Lemma sorted_Permutation {A : Type} (key : A → Z) (l : list A) :
  sorted key l ≡ₚ l.
Proof.
  induction l as [|x l IH]; simpl; [done|].
  unfold sorted in IH. by rewrite insert_sorted_Permutation, IH.
Qed.

Lemma argsort_Permutation docs_ids :
  argsort docs_ids ≡ₚ seq 0 (length docs_ids).
Proof.
  unfold argsort. rewrite sorted_Permutation.
  assert (∀ k (l : list Z),
    (imap (λ i x, (k + i, x)) l).*1 = seq k (length l)) as Himap.
  { intros k l. revert k. induction l as [|x l IH]; intros k; [done|].
    rewrite imap_cons. cbn [fmap list_fmap length seq fst].
    rewrite Nat.add_0_r. f_equal. rewrite <-(IH (S k)). f_equal.
    apply imap_ext. intros i y _. simpl. f_equal. lia. }
  by rewrite <-(Himap 0 docs_ids).
Qed.

Lemma argsort_length docs_ids :
  length (argsort docs_ids) = length docs_ids.
Proof. by rewrite argsort_Permutation, length_seq. Qed.

Lemma argsort_in_range docs_ids index :
  index ∈ argsort docs_ids → index < length docs_ids.
Proof.
  rewrite argsort_Permutation, elem_of_seq. lia.
Qed.

Lemma comprehension_getitem {A : Type} `{Inhabited A} (l : list A) indice :
  (∀ index, index ∈ indice → index < length l) →
  comprehension (list_getitem l) indice = Return ((l !!!.) <$> indice).
Proof.
  intros Hin. apply comprehension_pure. intros index Hi.
  unfold list_getitem.
  destruct (lookup_lt_is_Some_2 l index (Hin index Hi)) as [x Hx].
  rewrite Hx. by rewrite (list_lookup_total_correct _ _ _ Hx).
Qed.

(** C6 (what the code does): for a corpus and a document-id list of the
    same length, [merge_documents] prints the shape of the reordered matrix
    and returns [None]; it hands back neither a document-id list nor a
    corpus. *)
Theorem merge_documents_returns_None corpus dictionary docs_ids :
  length docs_ids = length corpus →
  merge_documents corpus dictionary docs_ids
  = Return (length corpus, Gensim.len dictionary, PyNone).
Proof.
  intros Hlen. unfold merge_documents.
  rewrite (comprehension_getitem docs_ids)
    by (intros; by apply argsort_in_range).
  simpl. unfold take_rows.
  rewrite (comprehension_getitem _ (argsort docs_ids)).
  - simpl. by rewrite argsort_length, Hlen.
  - intros index Hi%argsort_in_range. simpl. by rewrite <-Hlen.
Qed.

(** Two documents with the same id: nothing is merged, nothing returned. *)
Lemma merge_documents_same_id :
  length [7%Z; 7%Z] = length [[(0, 1)]; [(0, 2); (1, 1)]]
  ∧ merge_documents [[(0, 1)]; [(0, 2); (1, 1)]] pet_vocabulary [7%Z; 7%Z]
    = Return (2, Gensim.len pet_vocabulary, PyNone).
Proof.
  split; [reflexivity|].
  exact (merge_documents_returns_None [[(0, 1)]; [(0, 2); (1, 1)]]
           pet_vocabulary [7%Z; 7%Z] eq_refl).
Defined.

(** ** The histogram *)

Lemma getitem_raises_KeyError dictionary tokenid e :
  Gensim.getitem dictionary tokenid = Raise e → e = KeyError.
Proof.
  unfold Gensim.getitem, Dict.getitem.
  by destruct (_ !! tokenid); intros [= <-].
Qed.

Lemma collect_weights_raises_KeyError dictionary doc ngram_dist e :
  collect_weights dictionary ngram_dist doc = Raise e → e = KeyError.
Proof.
  unfold collect_weights. revert ngram_dist.
  induction doc as [|x doc IH]; intros ngram_dist; simpl; [done|].
  destruct (Gensim.getitem dictionary x.1) as [ngram|e'] eqn:Hget; simpl.
  - apply IH.
  - intros [= <-]. by eapply getitem_raises_KeyError.
Qed.

(** C9 (what the code does): [corpus_histogram] never returns.  The loop
    that collects the weights raises [KeyError] at an id the dictionary
    does not hold; otherwise [ngram_dist.iteritems()] raises
    [AttributeError], also for a corpus in which no term appears twice. *)
Theorem corpus_histogram_raises corpus dictionary sort_by N :
  corpus_histogram corpus dictionary sort_by N = Raise AttributeError
  ∨ corpus_histogram corpus dictionary sort_by N = Raise KeyError.
Proof.
  unfold corpus_histogram, corpus_histogram_with.
  match goal with
  | |- context [for_each ?body ?l ∅] =>
      destruct (for_each body l ∅) as [dist|e] eqn:Hloop
  end.
  - by left.
  - right. simpl. f_equal. revert Hloop.
    generalize (∅ : gmap string (list Z)).
    match goal with |- context [for_each _ ?l] => generalize l end.
    intros l. induction l as [|doc l IH]; intros s; simpl; [done|].
    destruct (collect_weights dictionary s doc) as [s'|e'] eqn:Hdoc; simpl.
    + apply IH.
    + intros [= <-]. by eapply collect_weights_raises_KeyError.
Qed.

(** A corpus in which no term appears in two documents. *)
Lemma corpus_histogram_degenerate :
  corpus_histogram [[(0, 1%Z)]; [(1, 2%Z)]]
    {| token2id := {[ "cat" := 0; "dog" := 1 ]}; id2token := ∅;
       cfs := ∅; dfs := ∅; num_docs := 2; num_pos := 2; num_nnz := 2 |}
    "count" 10
  = Raise AttributeError.
Proof. reflexivity. Qed.

(** ** Python dictionaries *)

Section DictLemmas.
Context `{Countable K} {V : Type}.
Implicit Types (l : list (K * V)) (d : gmap K V).

Lemma of_pairs_snoc l k v :
  Dict.of_pairs (l ++ [(k, v)]) = <[k := v]> (Dict.of_pairs l).
Proof. unfold Dict.of_pairs. by rewrite foldl_app. Qed.

Lemma of_pairs_lookup_None l k :
  k ∉ l.*1 → Dict.of_pairs l !! k = None.
Proof.
  induction l as [|[k' v'] l IH] using rev_ind; intros Hk; [done|].
  rewrite of_pairs_snoc. rewrite fmap_app in Hk. simpl in Hk.
  apply not_elem_of_app in Hk as [Hk1 Hk2].
  rewrite lookup_insert_ne; [by apply IH|].
  intros ->. apply Hk2. by left.
Qed.

(** Without colliding keys the dictionary holds exactly the pairs. *)
Lemma of_pairs_lookup l k v :
  NoDup l.*1 → Dict.of_pairs l !! k = Some v ↔ (k, v) ∈ l.
Proof.
  induction l as [|[k' v'] l IH] using rev_ind; intros Hnd.
  - split; [done | by intros ?%elem_of_nil].
  - rewrite of_pairs_snoc. rewrite fmap_app in Hnd. simpl in Hnd.
    apply NoDup_app in Hnd as (Hl & Hk' & _).
    rewrite elem_of_app, list_elem_of_singleton.
    destruct (decide (k = k')) as [->|Hne].
    + rewrite lookup_insert_eq. split.
      * intros [= ->]. by right.
      * intros [Hin|[= ->]]; [|done]. exfalso.
        apply (Hk' k'); [|by left].
        apply list_elem_of_fmap. by exists (k', v).
    + rewrite lookup_insert_ne by done. rewrite (IH Hl). split.
      * by left.
      * intros [?|[= ? ?]]; [done|]. by subst.
Qed.

Lemma items_elem_of d k v : (k, v) ∈ Dict.items d ↔ d !! k = Some v.
Proof. apply elem_of_map_to_list. Qed.

Lemma items_NoDup d : NoDup (Dict.items d).*1.
Proof. apply NoDup_fst_map_to_list. Qed.

Lemma items_length d : length (Dict.items d) = size d.
Proof. apply length_map_to_list. Qed.

End DictLemmas.

Lemma comprehend_pure `{Countable K, Countable K'} {V V' : Type}
    (kv : K * V → result (K' * V')) (g : K * V → K' * V') (d : gmap K V) :
  (∀ x, x ∈ Dict.items d → kv x = Return (g x)) →
  Dict.comprehend kv d = Return (Dict.of_pairs (g <$> Dict.items d)).
Proof.
  intros Hkv. unfold Dict.comprehend.
  by rewrite (comprehension_pure _ g) by done.
Qed.

Lemma of_pairs_fmap_values `{Countable K} {V V' : Type} (f : V → V')
    (m : gmap K V) :
  Dict.of_pairs ((λ kv, (kv.1, f kv.2)) <$> Dict.items m) = f <$> m.
Proof.
  apply map_eq. intros k. apply option_eq. intros v'.
  rewrite of_pairs_lookup.
  - rewrite list_elem_of_fmap, lookup_fmap, fmap_Some. split.
    + intros ([k0 v] & [= -> ->] & Hin%items_elem_of). eauto.
    + intros (v & Hm & ->). exists (k, v). by rewrite items_elem_of.
  - assert (((λ kv : K * V, (kv.1, f kv.2)) <$> Dict.items m).*1
            = (Dict.items m).*1) as ->.
    { rewrite <-list_fmap_compose. by apply list_fmap_ext. }
    apply items_NoDup.
Qed.

Lemma of_pairs_rekey `{Countable K, Countable K'} {V : Type} (f : K → K')
    (m : gmap K V) k' v :
  (∀ k1 k2, is_Some (m !! k1) → is_Some (m !! k2) → f k1 = f k2 → k1 = k2) →
  Dict.of_pairs ((λ kv, (f kv.1, kv.2)) <$> Dict.items m) !! k' = Some v
  ↔ ∃ k, m !! k = Some v ∧ f k = k'.
Proof.
  intros Hinj. rewrite of_pairs_lookup.
  - rewrite list_elem_of_fmap. split.
    + intros ([k v0] & [= -> ->] & Hin%items_elem_of). eauto.
    + intros (k & Hm & <-). exists (k, v). by rewrite items_elem_of.
  - rewrite <-list_fmap_compose.
    apply (NoDup_fmap_2_strong _ (Dict.items m)); [|apply NoDup_map_to_list].
    intros [k1 v1] [k2 v2] H1%items_elem_of H2%items_elem_of Hf.
    simpl in Hf. assert (k1 = k2) as -> by (apply Hinj; eauto).
    by simplify_eq.
Qed.

(** ** Compaction *)

Lemma zip_seq_elem_of (l : list nat) v j k :
  (v, j) ∈ zip l (seq k (length l)) ↔ ∃ i, j = k + i ∧ l !! i = Some v.
Proof.
  revert k. induction l as [|x l IH]; intros k; simpl.
  - split; [by intros ?%elem_of_nil | by intros (i & _ & ?)].
  - rewrite elem_of_cons, IH. split.
    + intros [[= -> ->]|(i & -> & Hi)].
      * exists 0. split; [lia | done].
      * exists (S i). split; [lia | done].
    + intros ([|i] & -> & Hi); simpl in Hi.
      * left. simplify_eq. f_equal. lia.
      * right. exists i. split; [lia | done].
Qed.

Lemma values_NoDup (m : gmap string nat) :
  (∀ t1 t2 i, m !! t1 = Some i → m !! t2 = Some i → t1 = t2) →
  NoDup (Dict.values m).
Proof.
  intros Hinj. unfold Dict.values.
  apply NoDup_fmap_2_strong; [|apply NoDup_map_to_list].
  intros [t1 i1] [t2 i2] H1%items_elem_of H2%items_elem_of Hi.
  simpl in Hi. subst i2. f_equal. by eapply Hinj.
Qed.

Lemma values_elem_of (m : gmap string nat) i :
  i ∈ Dict.values m ↔ i ∈ (map_img m : gset nat).
Proof.
  unfold Dict.values. rewrite elem_of_map_img, list_elem_of_fmap. split.
  - intros ([t i'] & -> & Hin%items_elem_of). eauto.
  - intros (t & Ht). exists (t, i). by rewrite items_elem_of.
Qed.

Lemma values_length (m : gmap string nat) :
  length (Dict.values m) = size m.
Proof. unfold Dict.values. by rewrite length_fmap, items_length. Qed.

Lemma idmap_of_lookup (m : gmap string nat) i j :
  (∀ t1 t2 i, m !! t1 = Some i → m !! t2 = Some i → t1 = t2) →
  idmap_of m !! i = Some j ↔ merge_sort (≤) (Dict.values m) !! j = Some i.
Proof.
  intros Hinj. unfold idmap_of.
  assert (length (merge_sort (≤) (Dict.values m)) = size m) as Hlen.
  { by rewrite merge_sort_Permutation, values_length. }
  rewrite of_pairs_lookup.
  - rewrite <-Hlen, zip_seq_elem_of. split.
    + by intros (? & -> & ?).
    + intros ?. by exists j.
  - rewrite fst_zip by (rewrite length_seq; lia).
    rewrite merge_sort_Permutation. by apply values_NoDup.
Qed.

Section Renumbering.
Context (m : gmap string nat).
Hypothesis Hinj : ∀ t1 t2 i, m !! t1 = Some i → m !! t2 = Some i → t1 = t2.

Lemma renum_defined i :
  i ∈ (map_img m : gset nat) →
  idmap_of m !! i = Some (default 0 (idmap_of m !! i))
  ∧ default 0 (idmap_of m !! i) < size m.
Proof.
  intros Hi%values_elem_of.
  rewrite <-(merge_sort_Permutation (≤)) in Hi.
  apply list_elem_of_lookup in Hi as [j Hj].
  pose proof (lookup_lt_Some _ _ _ Hj) as Hlt.
  rewrite merge_sort_Permutation, values_length in Hlt.
  apply idmap_of_lookup in Hj; [|done].
  by rewrite Hj.
Qed.

Lemma renum_inj i1 i2 :
  i1 ∈ (map_img m : gset nat) → i2 ∈ (map_img m : gset nat) →
  default 0 (idmap_of m !! i1) = default 0 (idmap_of m !! i2) → i1 = i2.
Proof.
  intros [H1 _]%renum_defined [H2 _]%renum_defined Heq.
  rewrite Heq in H1.
  apply idmap_of_lookup in H1; [|done]. apply idmap_of_lookup in H2; [|done].
  congruence.
Qed.

Lemma renum_surj j :
  j < size m →
  ∃ i, i ∈ (map_img m : gset nat) ∧ default 0 (idmap_of m !! i) = j.
Proof.
  intros Hj. rewrite <-values_length in Hj.
  rewrite <-(merge_sort_Permutation (≤)) in Hj.
  apply lookup_lt_is_Some_2 in Hj as [i Hi].
  exists i. split.
  - apply values_elem_of. rewrite <-(merge_sort_Permutation (≤)).
    by eapply list_elem_of_lookup_2.
  - apply idmap_of_lookup in Hi; [|done]. by rewrite Hi.
Qed.

End Renumbering.

Lemma compactify_spec d :
  well_formed d →
  ∃ d', compactify d = Return d'
    ∧ token2id d'
      = (λ i, default 0 (idmap_of (token2id d) !! i)) <$> token2id d
    ∧ (∀ j v, dfs d' !! j = Some v
         ↔ ∃ i, dfs d !! i = Some v
                ∧ default 0 (idmap_of (token2id d) !! i) = j)
    ∧ (∀ j v, cfs d' !! j = Some v
         ↔ ∃ i, cfs d !! i = Some v
                ∧ default 0 (idmap_of (token2id d) !! i) = j).
Proof.
  intros [Hinj Hdfs Hcfs].
  set (renum := λ i, default 0 (idmap_of (token2id d) !! i)).
  assert (∀ i, i ∈ ids d →
    Dict.getitem (idmap_of (token2id d)) i = Return (renum i)) as Hget.
  { intros i Hi. unfold Dict.getitem.
    by destruct (renum_defined _ Hinj i Hi) as [-> _]. }
  assert (∀ m : gmap nat nat,
    (∀ i, is_Some (m !! i) → i ∈ ids d) →
    Dict.comprehend
      (λ kv : nat * nat,
         i ← Dict.getitem (idmap_of (token2id d)) kv.1; Return (i, kv.2)) m
    = Return (Dict.of_pairs ((λ kv, (renum kv.1, kv.2)) <$> Dict.items m))
    ∧ ∀ j v, Dict.of_pairs ((λ kv, (renum kv.1, kv.2)) <$> Dict.items m)
               !! j = Some v
             ↔ ∃ i, m !! i = Some v ∧ renum i = j) as Hfreq.
  { intros m Hm. split.
    - apply comprehend_pure. intros [i v] Hin%items_elem_of. simpl.
      by rewrite Hget by eauto.
    - intros j v. apply of_pairs_rekey. intros k1 k2 H1 H2.
      apply (renum_inj _ Hinj); by apply Hm. }
  destruct (Hfreq (dfs d) Hdfs) as [Hd1 Hd2].
  destruct (Hfreq (cfs d) Hcfs) as [Hc1 Hc2].
  eexists. split; [|split; [|split]].
  - unfold compactify. rewrite Hd1, Hc1.
    rewrite (comprehend_pure _ (λ kv : string * nat, (kv.1, renum kv.2))).
    + reflexivity.
    + intros [t i] Hin%items_elem_of. simpl.
      rewrite Hget; [done|]. apply elem_of_map_img. eauto.
  - simpl. apply of_pairs_fmap_values.
  - exact Hd2.
  - exact Hc2.
Qed.

(** Compaction of a well-formed dictionary returns; the result is well
    formed, its ids are 0, ..., k-1, and it holds the same terms with the
    same frequencies. *)
Lemma compactify_ok d :
  well_formed d →
  ∃ d', compactify d = Return d'
        ∧ well_formed d' ∧ compact d' ∧ same_terms d d'.
Proof.
  intros Hwf. destruct (compactify_spec d Hwf) as (d' & Hrun & Ht & Hd & Hc).
  destruct Hwf as [Hinj Hdfs Hcfs].
  set (renum := λ i, default 0 (idmap_of (token2id d) !! i)) in *.
  assert (∀ t j, token2id d' !! t = Some j
                 ↔ ∃ i, token2id d !! t = Some i ∧ renum i = j) as Hlook.
  { intros t j. rewrite Ht, lookup_fmap, fmap_Some. split.
    - intros (i & Hi & ->). eauto.
    - intros (i & Hi & <-). eauto. }
  assert (∀ j, j ∈ ids d' ↔ ∃ i, i ∈ ids d ∧ renum i = j) as Hids.
  { intros j. unfold ids. rewrite elem_of_map_img. split.
    - intros (t & (i & Hi & <-)%Hlook). exists i. split; [|done].
      apply elem_of_map_img. eauto.
    - intros (i & (t & Hi)%elem_of_map_img & <-). exists t.
      apply Hlook. eauto. }
  exists d'. split; [done|]. split; [|split].
  - split.
    + intros t1 t2 j (i1 & H1 & E1)%Hlook (i2 & H2 & E2)%Hlook.
      assert (i1 = i2) as ->.
      { apply (renum_inj _ Hinj); [apply elem_of_map_img; eauto..|].
        exact (eq_trans E1 (eq_sym E2)). }
      by eapply Hinj.
    + intros j [v (i & Hi & <-)%Hd]. apply Hids. exists i. eauto.
    + intros j [v (i & Hi & <-)%Hc]. apply Hids. exists i. eauto.
  - unfold compact. apply set_eq. intros j.
    rewrite Hids, elem_of_set_seq, Ht, map_size_fmap. split.
    + intros (i & Hi & <-).
      destruct (renum_defined _ Hinj i Hi) as [_ Hlt].
      fold (renum i) in Hlt. lia.
    + intros [_ Hlt]. by apply (renum_surj _ Hinj).
  - split.
    + intros t. rewrite Ht, lookup_fmap. apply fmap_is_Some.
    + intros t i j Hi (i' & Hi' & <-)%Hlook. simplify_eq.
      apply option_eq. intros v. rewrite Hd. split.
      * intros (i0 & H0 & E0).
        assert (i0 = i) as ->; [|done].
        apply (renum_inj _ Hinj); [by apply Hdfs; eauto| |done].
        apply elem_of_map_img. eauto.
      * intros Hv. eauto.
Qed.

(** ** Filtering *)

(** [filter_tokens] on a well-formed dictionary returns; the result is well
    formed and compact and holds exactly the terms whose id is not listed,
    with their frequencies. *)
Lemma filter_tokens_ok d bad_ids :
  well_formed d →
  ∃ d', filter_tokens d bad_ids = Return d'
    ∧ well_formed d' ∧ compact d'
    ∧ (∀ t, is_Some (token2id d' !! t)
         ↔ ∃ i, token2id d !! t = Some i ∧ i ∉ bad_ids)
    ∧ (∀ t i j, token2id d !! t = Some i → token2id d' !! t = Some j →
         dfs d' !! j = dfs d !! i).
Proof.
  intros [Hinj Hdfs Hcfs]. unfold filter_tokens.
  set (bad := list_to_set bad_ids : gset nat).
  set (df := {| token2id := filter (λ kv, kv.2 ∉ bad) (token2id d);
                id2token := id2token d;
                cfs := filter (λ kv, kv.1 ∉ bad) (cfs d);
                dfs := filter (λ kv, kv.1 ∉ bad) (dfs d);
                num_docs := num_docs d; num_pos := num_pos d;
                num_nnz := num_nnz d |}).
  assert (∀ t i, token2id df !! t = Some i
                 ↔ token2id d !! t = Some i ∧ i ∉ bad_ids) as Htok.
  { intros t i. simpl. rewrite map_lookup_filter_Some. simpl.
    unfold bad. by rewrite elem_of_list_to_set. }
  assert (∀ (m : gmap nat nat) i,
    (∀ i, is_Some (m !! i) → i ∈ ids d) →
    is_Some (filter (λ kv : nat * nat, kv.1 ∉ bad) m !! i) → i ∈ ids df)
    as Hfreq.
  { intros m i Hm [v [Hv Hi]%map_lookup_filter_Some]. simpl in Hi.
    destruct (elem_of_map_img_1 (SA:=gset nat) _ _ (Hm i (mk_is_Some _ _ Hv)))
      as [t Ht].
    apply elem_of_map_img. exists t. apply Htok. split; [done|].
    unfold bad in Hi. by rewrite elem_of_list_to_set in Hi. }
  assert (well_formed df) as Hwf.
  { split.
    - intros t1 t2 i [H1 _]%Htok [H2 _]%Htok. by eapply Hinj.
    - intros i. by apply Hfreq.
    - intros i. by apply Hfreq. }
  destruct (compactify_ok df Hwf) as (d' & Hrun & Hwf' & Hc & Hsame & Hsfreq).
  exists d'. split; [done|]. split; [done|]. split; [done|]. split.
  - intros t. rewrite Hsame. split.
    + intros [i Hi%Htok]. eauto.
    + intros (i & Hi). exists i. by apply Htok.
  - intros t i j Hi Hj.
    assert (token2id df !! t = Some i) as Hi'.
    { destruct (proj1 (Hsame t) (mk_is_Some _ _ Hj)) as [i' Hi'].
      pose proof (proj1 (Htok t i') Hi') as [Hi'' _]. by simplify_eq. }
    rewrite (Hsfreq t i j Hi' Hj). simpl.
    apply Htok in Hi' as [_ Hbad].
    apply option_eq. intros v. rewrite map_lookup_filter_Some. simpl.
    unfold bad. rewrite elem_of_list_to_set. tauto.
Qed.

(** ** Adding a document *)

Lemma of_pairs_is_Some `{Countable K} {V : Type} (l : list (K * V)) k :
  is_Some (Dict.of_pairs l !! k) ↔ k ∈ l.*1.
Proof.
  induction l as [|[k' v'] l IH] using rev_ind.
  - split; [by intros [? ?] | by intros ?%elem_of_nil].
  - rewrite of_pairs_snoc, fmap_app, elem_of_app. simpl.
    rewrite list_elem_of_singleton.
    destruct (decide (k = k')) as [->|Hne].
    + rewrite lookup_insert_eq. split; [by right | by eauto].
    + rewrite lookup_insert_ne by done. rewrite IH. tauto.
Qed.

Lemma count_words_flat tokens :
  ∃ counter, count_words (Str <$> tokens) = Return counter
             ∧ ∀ w, is_Some (counter !! w) ↔ w ∈ tokens.
Proof.
  unfold count_words.
  assert (∀ (c0 : gmap string nat),
    ∃ counter,
      for_each
        (λ counter w,
           match w with
           | Str w => Return (<[w := S (default 0 (counter !! w))]> counter)
           | Lst _ => Raise TypeError
           end) (Str <$> tokens) c0 = Return counter
      ∧ ∀ w, is_Some (counter !! w) ↔ is_Some (c0 !! w) ∨ w ∈ tokens)
    as Hgen.
  { induction tokens as [|t tokens IH]; intros c0.
    - exists c0. split; [done|]. intros w. rewrite elem_of_nil. tauto.
    - destruct (IH (<[t := S (default 0 (c0 !! t))]> c0))
        as (counter & Hrun & Hdom).
      exists counter. split; [done|]. intros w.
      rewrite Hdom, elem_of_cons, lookup_insert_is_Some.
      destruct (decide (t = w)); [subst|]; intuition congruence. }
  destruct (Hgen ∅) as (counter & Hrun & Hdom).
  exists counter. split; [done|]. intros w.
  rewrite Hdom, lookup_empty. split; [|by right].
  by intros [[? ?]|?].
Qed.

Lemma missing_spec counter (token2id : gmap string nat) :
  NoDup (missing counter token2id).*1
  ∧ ∀ w, w ∈ (missing counter token2id).*1
         ↔ is_Some (counter !! w) ∧ token2id !! w = None.
Proof.
  unfold missing. split.
  - rewrite merge_sort_Permutation.
    apply NoDup_fmap_2_strong; [|apply NoDup_filter, NoDup_map_to_list].
    intros [w1 f1] [w2 f2] [_ H1%items_elem_of]%list_elem_of_filter
      [_ H2%items_elem_of]%list_elem_of_filter Hw.
    simpl in Hw. subst w2. by simplify_eq.
  - intros w. rewrite merge_sort_Permutation, list_elem_of_fmap. split.
    + intros ([w' f] & -> & [Hnone Hin%items_elem_of]%list_elem_of_filter).
      simpl in *. eauto.
    + intros [[f Hf] Hnone]. exists (w, f). split; [done|].
      apply list_elem_of_filter. by rewrite items_elem_of.
Qed.

Lemma dense_insert (m : gmap string nat) w :
  dense m → m !! w = None → dense (<[w := size m]> m).
Proof.
  intros [Hinj Himg] Hw.
  assert (∀ t, m !! t ≠ Some (size m)) as Hfresh.
  { intros t Ht.
    assert (size m ∈ (map_img m : gset nat)) as Hin
      by (apply elem_of_map_img; eauto).
    rewrite Himg, elem_of_set_seq in Hin. lia. }
  split.
  - intros t1 t2 i H1 H2.
    apply lookup_insert_Some in H1 as [[E1 F1]|[N1 H1]];
      apply lookup_insert_Some in H2 as [[E2 F2]|[N2 H2]].
    + congruence.
    + subst i. by destruct (Hfresh t2).
    + subst i. by destruct (Hfresh t1).
    + by eapply Hinj.
  - rewrite map_size_insert_None by done.
    rewrite map_img_insert_notin_L by done.
    rewrite Himg, set_seq_S_end_union_L. done.
Qed.

Lemma assign_ids_spec (m : gmap string nat) (l : list (string * nat)) :
  dense m → NoDup l.*1 → (∀ w, w ∈ l.*1 → m !! w = None) →
  dense (assign_ids m l)
  ∧ (∀ t i, m !! t = Some i → assign_ids m l !! t = Some i)
  ∧ (∀ t, is_Some (assign_ids m l !! t) ↔ is_Some (m !! t) ∨ t ∈ l.*1).
Proof.
  unfold assign_ids. revert m.
  induction l as [|[w f] l IH]; intros m Hm Hnd Hnew; simpl.
  - split; [done|]. split; [done|]. intros t. rewrite elem_of_nil. tauto.
  - apply NoDup_cons in Hnd as [Hw Hnd]. simpl in Hw.
    assert (m !! w = None) as Hmw by (apply Hnew; left).
    destruct (IH (<[w := size m]> m)) as (Hd & Hold & Hdom).
    + by apply dense_insert.
    + done.
    + intros w' Hw'. rewrite lookup_insert_ne; [apply Hnew; by right|].
      by intros ->.
    + split; [done|]. split.
      * intros t i Ht. apply Hold. rewrite lookup_insert_ne; [done|].
        intros ->. congruence.
      * intros t. rewrite Hdom, lookup_insert_is_Some, elem_of_cons.
        simpl. destruct (decide (w = t)); [subst|]; intuition congruence.
Qed.

Lemma add_all_lookup_notin (g : nat * nat → nat) (m : gmap nat nat)
    (l : list (nat * nat)) i :
  i ∉ l.*1 → foldl (λ m kv, add_to m kv.1 (g kv)) m l !! i = m !! i.
Proof.
  revert m. induction l as [|[k v] l IH]; intros m Hi; simpl; [done|].
  apply not_elem_of_cons in Hi as [Hne Hi]. simpl in Hne.
  rewrite IH by done. unfold add_to. simpl. by rewrite lookup_insert_ne.
Qed.

Lemma add_all_lookup_in (g : nat * nat → nat) (m : gmap nat nat)
    (l : list (nat * nat)) i v :
  NoDup l.*1 → (i, v) ∈ l →
  foldl (λ m kv, add_to m kv.1 (g kv)) m l !! i
  = Some (default 0 (m !! i) + g (i, v)).
Proof.
  revert m. induction l as [|[k v'] l IH]; intros m Hnd Hin; simpl.
  - by apply elem_of_nil in Hin.
  - apply NoDup_cons in Hnd as [Hk Hnd]. simpl in Hk.
    apply elem_of_cons in Hin as [[= <- <-]|Hin].
    + rewrite add_all_lookup_notin by done.
      unfold add_to. simpl. by rewrite lookup_insert_eq.
    + rewrite (IH _ Hnd Hin). unfold add_to. simpl.
      rewrite lookup_insert_ne; [done|].
      intros ->. apply Hk. apply list_elem_of_fmap. by exists (i, v).
Qed.

Lemma add_all_items (g : nat * nat → nat) (m result : gmap nat nat) i :
  foldl (λ m kv, add_to m kv.1 (g kv)) m (Dict.items result) !! i
  = match result !! i with
    | Some v => Some (default 0 (m !! i) + g (i, v))
    | None => m !! i
    end.
Proof.
  destruct (result !! i) as [v|] eqn:Hr.
  - apply add_all_lookup_in; [apply items_NoDup | by apply items_elem_of].
  - apply add_all_lookup_notin.
    intros ([i' v] & -> & Hin%items_elem_of)%list_elem_of_fmap.
    simpl in Hr. congruence.
Qed.

Lemma bow_is_Some counter (token2id : gmap string nat) i :
  is_Some (bow counter token2id !! i)
  ↔ ∃ w, is_Some (counter !! w) ∧ token2id !! w = Some i.
Proof.
  unfold bow. rewrite of_pairs_is_Some, list_elem_of_fmap. split.
  - intros ([i' f] & -> & ([w f'] & Hin%items_elem_of & Hg)%list_elem_of_omap).
    simpl in Hg. apply fmap_Some in Hg as (i0 & Hw & [= -> ->]).
    exists w. eauto.
  - intros (w & [f Hf] & Hw). exists (i, f). split; [done|].
    apply list_elem_of_omap. exists (w, f). rewrite items_elem_of.
    split; [done|]. simpl. by rewrite Hw.
Qed.

Lemma docfreq_snoc t docs tokens :
  docfreq t (docs ++ [Str <$> tokens])
  = docfreq t docs + (if decide (t ∈ tokens) then 1 else 0).
Proof.
  unfold docfreq. rewrite filter_app, length_app. f_equal.
  rewrite filter_cons, filter_nil.
  assert (Str t ∈ Str <$> tokens ↔ t ∈ tokens) as Hmem.
  { rewrite list_elem_of_fmap. split.
    - by intros (t' & [= ->] & ?).
    - intros ?. by exists t. }
  destruct (decide (t ∈ tokens)) as [Hin|Hin].
  - by rewrite decide_True by (by apply Hmem).
  - rewrite decide_False; [done|]. by rewrite Hmem.
Qed.

Lemma tracks_empty : tracks [] Gensim.empty.
Proof.
  split.
  - split; simpl.
    + intros t1 t2 i. by rewrite lookup_empty.
    + intros i. rewrite lookup_empty. by intros [? ?].
    + intros i. rewrite lookup_empty. by intros [? ?].
  - unfold compact, ids. simpl. by rewrite map_img_empty_L, map_size_empty.
  - intros t. simpl. rewrite lookup_empty. unfold docfreq. simpl.
    split; [by intros [? ?] | lia].
  - intros t i. simpl. by rewrite lookup_empty.
Qed.

(** Adding a flat document keeps the dictionary in step with the stream. *)
Lemma doc2bow_tracks docs d tokens :
  tracks docs d →
  ∃ d' pairs, doc2bow d (Str <$> tokens) true = Return (d', pairs)
              ∧ tracks (docs ++ [Str <$> tokens]) d'.
Proof.
  intros [[Hinj Hdfs Hcfs] Hcompact Hterms Htr].
  destruct (count_words_flat tokens) as (counter & Hcount & Hdom).
  unfold doc2bow. rewrite Hcount. cbn [mbind result_bind].
  eexists _, _. split; [reflexivity|].
  set (m := token2id d) in *.
  set (m' := assign_ids m (missing counter m)).
  destruct (missing_spec counter m) as [Hnd Hmiss].
  destruct (assign_ids_spec m (missing counter m)) as ([Hinj' Himg'] & Hold & Hdom');
    [by split | done | by intros w [_ ?]%Hmiss |].
  fold m' in Hinj', Himg', Hold, Hdom'.
  assert (∀ t, is_Some (m' !! t) ↔ is_Some (m !! t) ∨ t ∈ tokens) as Hterms'.
  { intros t. rewrite Hdom', Hmiss, Hdom.
    destruct (m !! t) eqn:Hmt; [|tauto].
    split; [intros _; left; eauto | eauto]. }
  assert (∀ i, is_Some (bow counter m' !! i)
               ↔ ∃ w, w ∈ tokens ∧ m' !! w = Some i) as Hbow.
  { intros i. rewrite bow_is_Some. by setoid_rewrite Hdom. }
  assert (∀ (g : nat * nat → nat) (freq : gmap nat nat) i,
    (∀ i, is_Some (freq !! i) → i ∈ ids d) →
    is_Some (foldl (λ m kv, add_to m kv.1 (g kv)) freq
               (Dict.items (bow counter m')) !! i) →
    i ∈ (map_img m' : gset nat)) as Hfreq.
  { intros g freq i Hf. rewrite add_all_items.
    destruct (bow counter m' !! i) as [v|] eqn:Hb.
    - intros _. destruct (proj1 (Hbow i)) as (w & _ & Hw); [by rewrite Hb|].
      apply elem_of_map_img. eauto.
    - intros (t & Ht)%Hf%elem_of_map_img. apply elem_of_map_img.
      exists t. by apply Hold. }
  split.
  - split; simpl.
    + exact Hinj'.
    + intros i. by apply Hfreq.
    + intros i. by apply Hfreq.
  - exact Himg'.
  - intros t. simpl. fold m'. rewrite Hterms', docfreq_snoc.
    fold m in Hterms. rewrite (Hterms t).
    destruct (decide (t ∈ tokens)); [|intuition lia].
    split; [lia | by right].
  - intros t i. simpl. fold m'. intros Hi. rewrite add_all_items.
    rewrite docfreq_snoc. destruct (decide (t ∈ tokens)) as [Hin|Hin].
    + destruct (proj2 (Hbow i)) as [v ->]; [eauto|]. simpl. f_equal.
      destruct (m !! t) as [i0|] eqn:Hmt.
      * pose proof (Hold t i0 Hmt) as Hi0. simplify_eq.
        fold m in Htr. by rewrite (Htr t i Hmt).
      * assert (docfreq t docs = 0) as ->.
        { destruct (docfreq t docs) eqn:Hdf; [done|].
          destruct (proj2 (Hterms t)) as [? ?]; [lia | congruence]. }
        destruct (dfs d !! i) as [v'|] eqn:Hd; [|done]. exfalso.
        destruct (elem_of_map_img_1 (SA:=gset nat) m i) as [t0 Ht0].
        { apply Hdfs. by rewrite Hd. }
        pose proof (Hold t0 i Ht0) as Ht0'.
        assert (t0 = t) as -> by (by eapply Hinj'). congruence.
    + destruct (bow counter m' !! i) as [v|] eqn:Hb.
      { destruct (proj1 (Hbow i)) as (w & Hw & Hwi); [by rewrite Hb|].
        assert (w = t) as -> by (by eapply Hinj'). done. }
      rewrite Nat.add_0_r.
      destruct (proj1 (Hterms' t)) as [[i0 Hi0]|?]; [eauto| |done].
      pose proof (Hold t i0 Hi0) as Hi0'. simplify_eq.
      by apply Htr.
Qed.

Lemma add_documents_tracks pre d docs :
  tracks pre d → Forall flat docs →
  ∃ d', add_documents d docs = Return d' ∧ tracks (pre ++ docs) d'.
Proof.
  unfold add_documents. revert pre d.
  induction docs as [|doc docs IH]; intros pre d Htr Hflat.
  - exists d. by rewrite app_nil_r.
  - apply Forall_cons in Hflat as [[tokens ->] Hflat].
    destruct (doc2bow_tracks pre d tokens Htr) as (d1 & pairs & Hrun & Htr1).
    destruct (IH _ d1 Htr1 Hflat) as (d' & Hrun' & Htr').
    exists d'. simpl. rewrite Hrun. simpl.
    split; [done|]. by rewrite <-(assoc_L (++)) in Htr'.
Qed.

(** ** Building the vocabulary *)

Section Vocabulary.
Context `{nltk : NLTK}.

Lemma outcome_flat self line :
  is_tokenzied self = true → keep_sents self = false →
  flat (outcome self line).
Proof.
  intros Ht Hk. unfold outcome, tokenize, string2tokens. rewrite Ht, Hk.
  destruct (sentence_loop line (n self) (doc_padding self))
    as [[tokens sents]|e]; simpl.
  - by exists tokens.
  - by exists [].
Qed.

Lemma stream_flat lines n p :
  Forall flat (yielded (Documents_iter (Documents_init lines n p false true))).
Proof.
  rewrite Documents_iter_yielded. apply Forall_fmap, Forall_forall.
  intros line _. by apply outcome_flat.
Qed.

(** [vocabulary] returns for every input; the dictionary it returns is well
    formed and compact, holds exactly the terms that match the regular
    expression and occur in more than [min_term_freq] documents, and keeps
    their document frequencies. *)
Lemma vocabulary_spec lines min_term_freq n p :
  ∃ d, vocabulary lines min_term_freq n p = Return d
    ∧ well_formed d ∧ compact d
    ∧ (∀ t, is_Some (token2id d !! t)
         ↔ 0 < docfreq t (yielded (Documents_iter
                                     (Documents_init lines n p false true)))
           ∧ (min_term_freq
              < Z.of_nat (docfreq t (yielded (Documents_iter
                            (Documents_init lines n p false true)))))%Z
           ∧ re_match_alpha t)
    ∧ (∀ t j, token2id d !! t = Some j →
         dfs d !! j
         = Some (docfreq t (yielded (Documents_iter
                              (Documents_init lines n p false true))))).
Proof.
  unfold vocabulary.
  set (docs := yielded (Documents_iter (Documents_init lines n p false true))).
  destruct (add_documents_tracks [] Gensim.empty docs tracks_empty
              (stream_flat lines n p)) as (d0 & Hrun0 & Htr).
  simpl in Htr. destruct Htr as [Hwf0 Hc0 Hterms0 Hdfs0].
  rewrite Hrun0. cbn [mbind result_bind].
  set (bad := (filter (λ kv : nat * nat, (Z.of_nat kv.2 ≤ min_term_freq)%Z)
                 (Dict.six_iteritems (dfs d0))).*1
              ++ (filter (λ kv : string * nat, ¬ re_match_alpha kv.1)
                    (Dict.six_iteritems (token2id d0))).*2).
  destruct (filter_tokens_ok d0 bad Hwf0)
    as (d1 & Hrun1 & Hwf1 & Hc1 & Hterms1 & Hdfs1).
  rewrite Hrun1. cbn [mbind result_bind].
  destruct (compactify_ok d1 Hwf1) as (d2 & Hrun2 & Hwf2 & Hc2 & Hterms2 & Hdfs2).
  exists d2. split; [done|]. split; [done|]. split; [done|].
  assert (∀ t i, token2id d0 !! t = Some i →
    i ∉ bad ↔ (min_term_freq < Z.of_nat (docfreq t docs))%Z
              ∧ re_match_alpha t) as Hbad.
  { intros t i Hi. unfold bad. rewrite not_elem_of_app.
    assert (i ∈ (filter (λ kv : nat * nat,
                           (Z.of_nat kv.2 ≤ min_term_freq)%Z)
                   (Dict.six_iteritems (dfs d0))).*1
            ↔ (Z.of_nat (docfreq t docs) ≤ min_term_freq)%Z) as ->.
    { rewrite list_elem_of_fmap. split.
      - intros ([i' f] & -> & [Hle Hin%items_elem_of]%list_elem_of_filter).
        simpl in *. rewrite (Hdfs0 t i' Hi) in Hin. by simplify_eq.
      - intros Hle. exists (i, docfreq t docs). split; [done|].
        apply list_elem_of_filter. split; [done|].
        apply items_elem_of. by apply Hdfs0. }
    assert (i ∈ (filter (λ kv : string * nat, ¬ re_match_alpha kv.1)
                   (Dict.six_iteritems (token2id d0))).*2
            ↔ ¬ re_match_alpha t) as ->.
    { rewrite list_elem_of_fmap. split.
      - intros ([t' i'] & -> & [Hno Hin%items_elem_of]%list_elem_of_filter).
        simpl in *. by rewrite (wf_inj _ Hwf0 t t' i' Hi Hin).
      - intros Hno. exists (t, i). split; [done|].
        apply list_elem_of_filter. split; [done|]. by apply items_elem_of. }
    destruct (re_match_alpha t); simpl; intuition lia. }
  split.
  - intros t. rewrite Hterms2, Hterms1. split.
    + intros (i & Hi & Hb). apply (Hbad t i Hi) in Hb.
      split; [|done]. apply Hterms0. eauto.
    + intros ([i Hi]%Hterms0 & Hb). exists i. split; [done|].
      by apply (Hbad t i Hi).
  - intros t j Hj.
    destruct (proj1 (Hterms2 t) (mk_is_Some _ _ Hj)) as [j1 Hj1].
    destruct (proj1 (Hterms1 t) (mk_is_Some _ _ Hj1)) as (i & Hi & _).
    rewrite (Hdfs2 t j1 j Hj1 Hj), (Hdfs1 t i j1 Hi Hj1).
    by apply Hdfs0.
Qed.

End Vocabulary.

(** ** The sub-vocabulary *)

Lemma ids_of_elem_of l i : i ∈ ids_of l ↔ Id i ∈ l.
Proof.
  unfold ids_of. rewrite list_elem_of_omap. split.
  - intros ([t|i'] & Hin & [= <-]). done.
  - intros Hin. by exists (Id i).
Qed.

Lemma terms_of_elem_of l t : t ∈ terms_of l ↔ Term t ∈ l.
Proof.
  unfold terms_of. rewrite list_elem_of_omap. split.
  - intros ([t'|i] & Hin & [= <-]). done.
  - intros Hin. by exists (Term t).
Qed.

Lemma keys_elem_of {V : Type} (m : gmap string V) t :
  t ∈ Dict.keys m ↔ is_Some (m !! t).
Proof.
  unfold Dict.keys. rewrite list_elem_of_fmap. split.
  - intros ([t' i] & -> & Hin%items_elem_of). eauto.
  - intros [i Hi]. exists (t, i). by rewrite items_elem_of.
Qed.

(** [sub_vocabulary] on a well-formed dictionary returns the reference it
    was given; the object behind it has been pruned to the allowed terms and
    compacted; no other object is touched. *)
Lemma sub_vocabulary_spec r l by_key (h : heap) :
  well_formed (deref h r) →
  ∃ d' count,
    sub_vocabulary r l by_key h
    = Return (r, <[r := d']> h,
              [LoadExisting; TokensRemoved count; SubDictionaryCreated])
    ∧ well_formed d' ∧ compact d'
    ∧ (∀ t, is_Some (token2id d' !! t)
         ↔ ∃ i, token2id (deref h r) !! t = Some i ∧ allowed l by_key t i)
    ∧ (∀ t i j, token2id (deref h r) !! t = Some i →
         token2id d' !! t = Some j → dfs d' !! j = dfs (deref h r) !! i).
Proof.
  intros Hwf. set (d := deref h r) in *.
  assert (∃ count remove_ids,
    (if by_key then
       Return
         (length (elements ((list_to_set (Gensim.keys d) : gset nat)
                            ∖ list_to_set (ids_of l))),
          elements ((list_to_set (Gensim.keys d) : gset nat)
                    ∖ list_to_set (ids_of l)))
     else
       remove_ids ← comprehension (Dict.getitem (token2id d))
         (elements ((list_to_set (Dict.keys (token2id d)) : gset string)
                    ∖ list_to_set (terms_of l)));
       Return
         (length (elements
                    ((list_to_set (Dict.keys (token2id d)) : gset string)
                     ∖ list_to_set (terms_of l))),
          remove_ids))
    = Return (count, remove_ids)
    ∧ ∀ t i, token2id d !! t = Some i →
        i ∉ remove_ids ↔ allowed l by_key t i) as (count & bad & Hrem & Hbad).
  { destruct by_key.
    - eexists _, _. split; [reflexivity|]. intros t i Hi. unfold allowed.
      rewrite elem_of_elements, elem_of_difference, !elem_of_list_to_set.
      rewrite ids_of_elem_of. unfold Gensim.keys.
      rewrite values_elem_of, elem_of_map_img.
      split; [|tauto]. intros Hno.
      destruct (decide (Id i ∈ l)); [done|]. destruct Hno. eauto.
    - eexists _, _. split.
      + rewrite (comprehension_pure _
          (λ t, default 0 (token2id d !! t))); [reflexivity|].
        intros t [[i Hi]%elem_of_list_to_set%keys_elem_of _]%elem_of_elements
          %elem_of_difference.
        unfold Dict.getitem. by rewrite Hi.
      + intros t i Hi. unfold allowed. rewrite list_elem_of_fmap.
        split.
        * intros Hno. destruct (decide (Term t ∈ l)); [done|].
          destruct Hno. exists t. rewrite Hi. split; [done|].
          rewrite elem_of_elements, elem_of_difference,
            !elem_of_list_to_set, keys_elem_of, terms_of_elem_of. eauto.
        * intros Hin (t' & Ht' & Hel).
          apply elem_of_elements, elem_of_difference in Hel as [Hk Hno].
          apply elem_of_list_to_set, keys_elem_of in Hk as [i' Hi'].
          rewrite elem_of_list_to_set, terms_of_elem_of in Hno.
          rewrite Hi' in Ht'. simpl in Ht'. subst i'.
          by rewrite (wf_inj _ Hwf t t' i Hi Hi') in Hin. }
  destruct (filter_tokens_ok d bad Hwf)
    as (d1 & Hrun1 & Hwf1 & Hc1 & Hterms1 & Hdfs1).
  destruct (compactify_ok d1 Hwf1)
    as (d2 & Hrun2 & Hwf2 & Hc2 & Hterms2 & Hdfs2).
  exists d2, count. split; [|split; [done|split; [done|split]]].
  - unfold sub_vocabulary. cbv zeta. fold d. rewrite Hrem.
    cbn [mbind result_bind].
    unfold call_method at 2. fold d. rewrite Hrun1. cbn [mbind result_bind].
    unfold call_method, deref. rewrite lookup_total_insert_eq, Hrun2.
    cbn [mbind result_bind]. by rewrite insert_insert_eq.
  - intros t. rewrite Hterms2, Hterms1. split.
    + intros (i & Hi & Hb). exists i. split; [done|]. by apply (Hbad t i Hi).
    + intros (i & Hi & Ha). exists i. split; [done|]. by apply (Hbad t i Hi).
  - intros t i j Hi Hj.
    destruct (proj1 (Hterms2 t) (mk_is_Some _ _ Hj)) as [j1 Hj1].
    by rewrite (Hdfs2 t j1 j Hj1 Hj), (Hdfs1 t i j1 Hi Hj1).
Qed.

(** ** The claims about the vocabulary *)

Lemma compact_ids d j :
  compact d → (∃ t, token2id d !! t = Some j) ↔ j < size (token2id d).
Proof.
  unfold compact, ids. intros Hc.
  rewrite <-(elem_of_map_img (SA:=gset nat)), Hc, elem_of_set_seq. lia.
Qed.

(** The regular expression accepts letters and underscores, and nothing else
    but one final newline. *)
Lemma re_match_alpha_chars t c :
  re_match_alpha t → c ∈ chars t → is_word_char c ∨ c = Str.newline.
Proof.
  induction t as [|c' t IH]; simpl; [by intros _ ?%elem_of_nil|].
  destruct (is_word_char c') eqn:Hc'.
  - intros Hm [->|Hin]%elem_of_cons; [left; by rewrite Hc' | by apply IH].
  - intros [Hn ->%bool_decide_unpack]%andb_True.
    apply bool_decide_unpack in Hn as ->. simpl.
    intros ->%list_elem_of_singleton. by right.
Qed.

Lemma digit_not_word_char c : Str.isdigit c → ¬ is_word_char c.
Proof.
  unfold Str.isdigit, is_word_char, Str.isupper, Str.islower.
  intros [H1%Is_true_true%Nat.leb_le H2%Is_true_true%Nat.leb_le]%andb_True.
  intros [[Hu|Hl]%orb_True|Hx%bool_decide_unpack]%orb_True.
  - apply andb_True in Hu as [Hu%Is_true_true%Nat.leb_le _]. lia.
  - apply andb_True in Hl as [Hl%Is_true_true%Nat.leb_le _]. lia.
  - subst c. vm_compute in H2. lia.
Qed.

Lemma digit_not_newline c : Str.isdigit c → c ≠ Str.newline.
Proof. intros Hd ->. by vm_compute in Hd. Qed.

Section VocabularyClaims.
Context `{nltk : NLTK}.


(** X25: [vocabulary] returns a dictionary that holds no term which fails
    to match [^[A-Za-z_]*$] as [re.match] reads it: no term with a character
    other than a letter, an underscore or a newline, so no term with a
    digit, whatever its frequency; co2 and well-known are absent. *)
Theorem vocabulary_alphabetic_only lines min_term_freq n p :
  ∃ d, vocabulary lines min_term_freq n p = Return d
    ∧ (∀ t, ¬ re_match_alpha t → token2id d !! t = None)
    ∧ (∀ t c, c ∈ chars t → ¬ is_word_char c → c ≠ Str.newline →
         token2id d !! t = None)
    ∧ (∀ t c, c ∈ chars t → Str.isdigit c → token2id d !! t = None)
    ∧ token2id d !! "co2" = None
    ∧ token2id d !! "well-known" = None.
Proof.
  destruct (vocabulary_spec lines min_term_freq n p)
    as (d & Hrun & _ & _ & Hterms & _).
  assert (∀ t, ¬ re_match_alpha t → token2id d !! t = None) as Hre.
  { intros t Hno. apply eq_None_not_Some. intros Ht.
    by apply Hterms in Ht as (_ & _ & Hm). }
  assert (∀ t c, c ∈ chars t → ¬ is_word_char c → c ≠ Str.newline →
            token2id d !! t = None) as Hchar.
  { intros t c Hc Hw Hn. apply Hre. intros Hm.
    by destruct (re_match_alpha_chars t c Hm Hc). }
  exists d. split; [done|]. split; [done|]. split; [done|].
  split; [|split].
  - intros t c Hc Hd.
    by apply (Hchar t c Hc); [apply digit_not_word_char
                             | apply digit_not_newline].
  - apply Hre. by vm_compute.
  - apply Hre. by vm_compute.
Qed.

End VocabularyClaims.

(** C3: the ids of a dictionary returned by [vocabulary] are exactly
    0, ..., k-1 for its k terms, no two terms sharing one; and so are the
    ids of a vocabulary after [sub_vocabulary] has pruned it. *)
Theorem vocabulary_ids_contiguous :
  (∀ (nltk : NLTK) lines min_term_freq n p,
     ∃ d, vocabulary lines min_term_freq n p = Return d
       ∧ ids d = set_seq 0 (size (token2id d))
       ∧ (∀ j, (∃ t, token2id d !! t = Some j) ↔ j < size (token2id d))
       ∧ (∀ t1 t2 i,
            token2id d !! t1 = Some i → token2id d !! t2 = Some i → t1 = t2))
  ∧ (∀ r l by_key (h : heap),
       well_formed (deref h r) →
       ∃ h' printed,
         sub_vocabulary r l by_key h = Return (r, h', printed)
         ∧ ids (deref h' r) = set_seq 0 (size (token2id (deref h' r)))
         ∧ (∀ j, (∃ t, token2id (deref h' r) !! t = Some j)
                 ↔ j < size (token2id (deref h' r)))
         ∧ (∀ t1 t2 i,
              token2id (deref h' r) !! t1 = Some i →
              token2id (deref h' r) !! t2 = Some i → t1 = t2)).
Proof.
  split.
  - intros nltk lines min_term_freq n p.
    destruct (vocabulary_spec lines min_term_freq n p)
      as (d & Hrun & Hwf & Hc & _).
    exists d. split; [done|]. split; [done|]. split.
    + intros j. by apply compact_ids.
    + apply (wf_inj _ Hwf).
  - intros r l by_key h Hwf.
    destruct (sub_vocabulary_spec r l by_key h Hwf)
      as (d' & count & Hrun & Hwf' & Hc & _).
    eexists _, _. split; [exact Hrun|].
    unfold deref. rewrite lookup_total_insert_eq.
    split; [done|]. split.
    + intros j. by apply compact_ids.
    + apply (wf_inj _ Hwf').
Qed.

(** C5 (as the code has it): [sub_vocabulary] makes no copy.  It returns the
    reference it was given; the object behind that reference is the pruned
    vocabulary, which holds exactly the allowed terms of the input with
    compacted ids; every other object is left as it was. *)
Theorem sub_vocabulary_in_place r l by_key (h : heap) :
  well_formed (deref h r) →
  ∃ d' printed,
    sub_vocabulary r l by_key h = Return (r, <[r := d']> h, printed)
    ∧ (∀ t, is_Some (token2id d' !! t)
         ↔ ∃ i, token2id (deref h r) !! t = Some i ∧ allowed l by_key t i)
    ∧ ids d' = set_seq 0 (size (token2id d'))
    ∧ (∀ r', r' ≠ r → (<[r := d']> h) !! r' = h !! r').
Proof.
  intros Hwf.
  destruct (sub_vocabulary_spec r l by_key h Hwf)
    as (d' & count & Hrun & Hwf' & Hc & Hterms & _).
  eexists _, _. split; [exact Hrun|]. split; [done|]. split; [done|].
  intros r' Hne. by rewrite lookup_insert_ne.
Qed.

(** ** The claims at sample inputs *)

Lemma decide_by_computation (P : Prop) `{Decision P} :
  bool_decide P = true → P.
Proof. intros Hb. apply (bool_decide_unpack P). by rewrite Hb. Qed.

(** Bigrams of the fox line, without padding and with a right pad symbol. *)
Lemma string2tokens_ngram_expansion_reference :
  @string2tokens Reference.nltk fox_line 2 no_padding true
  = Return [Lst ["quick"; "fox"; "quick_fox"]; Lst ["lazy"; "dog"; "lazy_dog"]]
  ∧ gram_loop ["lazy"; "dog"] 2 (Padding true false None (Some "</s>")) []
    = Return (["lazy"; "dog"; "lazy_dog"; "dog_</s>"],
              ["lazy"; "dog"; "lazy_dog"; "dog_</s>"]).
Proof.
  destruct (@string2tokens_ngram_expansion Reference.nltk) as (Hs & Hg & _).
  split.
  - apply (Hs fox_line 2 no_padding ["The quick fox."; "The lazy dog."]
             (λ s, match @tokens_of_sentence Reference.nltk s with
                   | Return tokens => tokens
                   | Raise _ => []
                   end)).
    + lia.
    + apply (decide_by_computation _). by vm_compute.
    + reflexivity.
    + intros s [->|[->|[]%elem_of_nil]%elem_of_cons]%elem_of_cons;
        reflexivity.
  - apply (Hg ["lazy"; "dog"] 2 (Padding true false None (Some "</s>")) []).
    + lia.
    + apply (decide_by_computation _). by vm_compute.
Defined.


(** A term with a digit is pruned although it occurs in every document. *)
Lemma vocabulary_alphabetic_only_reference :
  ∃ d, @vocabulary Reference.nltk ["co2 cat"; "cat co2"] 1 1 no_padding
       = Return d
       ∧ token2id d !! "co2" = None.
Proof.
  destruct (@vocabulary_alphabetic_only Reference.nltk ["co2 cat"; "cat co2"]
              1 1 no_padding) as (d & Hrun & _ & _ & Hdigit & _).
  exists d. split; [exact Hrun|].
  apply (Hdigit "co2" "2"%char); [|by vm_compute].
  apply (decide_by_computation _). by vm_compute.
Defined.

(** C4 (the code diverges): two lines, bigrams, the right side padded with
    a newline as pad symbol.  The bigram of dog and the pad symbol ends in a
    newline, which is neither a letter nor an underscore; it still matches
    [^[A-Za-z_]*$], where [$] also matches before a final newline, and is
    kept in the vocabulary, with the id 3. *)
Theorem vocabulary_keeps_newline_term :
  let pad := String Str.newline EmptyString in
  let term := "dog_" +:+ pad in
  ∃ d, @vocabulary Reference.nltk ["cat dog"; "cat dog"] 1 2
         (Padding true false None (Some pad)) = Return d
       ∧ token2id d !! term = Some 3
       ∧ last (chars term) = Some Str.newline
       ∧ ¬ is_word_char Str.newline
       ∧ re_match_alpha term.
Proof.
  intros pad term.
  destruct (@vocabulary_spec Reference.nltk ["cat dog"; "cat dog"] 1 2
              (Padding true false None (Some pad))) as (d & Hrun & _).
  exists d. split; [exact Hrun|].
  assert (match @vocabulary Reference.nltk ["cat dog"; "cat dog"] 1 2
                  (Padding true false None (Some pad)) with
          | Return d => token2id d !! term
          | Raise _ => None
          end = Some 3) as Hterm by (by vm_compute).
  rewrite Hrun in Hterm.
  split; [exact Hterm|]. split; [by vm_compute|].
  split; by vm_compute.
Qed.

Lemma pet_vocabulary_well_formed : well_formed (deref pet_heap 0).
Proof.
  unfold deref, pet_heap. rewrite lookup_total_singleton.
  unfold pet_vocabulary.
  destruct (@vocabulary_spec Reference.nltk pet_lines 0 1 no_padding)
    as (d & Hrun & Hwf & _).
  by rewrite Hrun.
Qed.

(** The pet vocabulary pruned to dog and bird has the ids 0 and 1. *)
Lemma vocabulary_ids_contiguous_pets :
  well_formed (deref pet_heap 0)
  ∧ ∃ h' printed,
      sub_vocabulary 0 [Term "dog"; Term "bird"] false pet_heap
      = Return (0, h', printed)
      ∧ ids (deref h' 0) = set_seq 0 (size (token2id (deref h' 0))).
Proof.
  split; [exact pet_vocabulary_well_formed|].
  destruct (proj2 vocabulary_ids_contiguous 0 [Term "dog"; Term "bird"]
              false pet_heap pet_vocabulary_well_formed)
    as (h' & printed & Hrun & Hids & _).
  exists h', printed. by split.
Defined.

(** C5 (the claim fails): after [sub_vocabulary] the vocabulary the caller
    passed in has lost the term cat; the reference returned is the one
    passed in. *)
Lemma sub_vocabulary_changes_input :
  token2id (deref pet_heap 0) !! "cat" = Some 0
  ∧ ∃ h' printed,
      sub_vocabulary 0 [Term "dog"; Term "bird"] false pet_heap
      = Return (0, h', printed)
      ∧ token2id (deref h' 0) !! "cat" = None
      ∧ deref h' 0 ≠ deref pet_heap 0.
Proof.
  split; [by vm_compute|].
  eexists _, _. split; [vm_compute; reflexivity|].
  split; [by vm_compute|].
  intros Heq.
  assert (token2id (deref pet_heap 0) !! "cat" = None) as Hcat.
  { rewrite <-Heq. by vm_compute. }
  by vm_compute in Hcat.
Qed.

(** The pet vocabulary is pruned in place. *)
Lemma sub_vocabulary_in_place_pets :
  well_formed (deref pet_heap 0)
  ∧ ∃ d' printed,
      sub_vocabulary 0 [Term "dog"; Term "bird"] false pet_heap
      = Return (0, <[0 := d']> pet_heap, printed)
      ∧ ids d' = set_seq 0 (size (token2id d')).
Proof.
  split; [exact pet_vocabulary_well_formed|].
  destruct (sub_vocabulary_in_place 0 [Term "dog"; Term "bird"] false
              pet_heap pet_vocabulary_well_formed)
    as (d' & printed & Hrun & _ & Hids & _).
  exists d', printed. by split.
Defined.

(** ** The histogram as it was meant *)

Lemma for_each_concat {A S : Type} (body : S → A → result S)
    (ls : list (list A)) s :
  for_each (λ s l, for_each body l s) ls s = for_each body (concat ls) s.
Proof.
  revert s. induction ls as [|l ls IH]; intros s; simpl; [done|].
  rewrite for_each_app. destruct (for_each body l s); simpl; [apply IH|done].
Qed.

Lemma filter_all {A : Type} (P : A → Prop) `{∀ x, Decision (P x)}
    (l : list A) :
  (∀ x, x ∈ l → P x) → filter P l = l.
Proof.
  induction l as [|x l IH]; intros Hall; [done|].
  rewrite filter_cons, decide_True by (apply Hall; left).
  rewrite IH; [done|]. intros y Hy. apply Hall. by right.
Qed.

Lemma collect_weights_occurrences dictionary xs
    (dist0 : gmap string (list Z)) :
  (∀ x, x ∈ xs → ∃ term, Gensim.getitem dictionary x.1 = Return term) →
  ∃ dist, collect_weights dictionary dist0 xs = Return dist
    ∧ ∀ term, length (default [] (dist !! term))
              = length (default [] (dist0 !! term))
                + occurrences dictionary term xs.
Proof.
  unfold collect_weights, occurrences. revert dist0.
  induction xs as [|x xs IH]; intros dist0 Hknown.
  - exists dist0. split; [done|]. intros term. simpl. lia.
  - destruct (Hknown x) as [ngram Hget]; [by left|].
    destruct (IH (<[ngram := default [] (dist0 !! ngram) ++ [x.2]]> dist0))
      as (dist & Hrun & Hlen).
    { intros y Hy. apply Hknown. by right. }
    exists dist. split.
    + simpl. rewrite Hget. simpl. exact Hrun.
    + intros term. rewrite Hlen, filter_cons, Hget.
      destruct (decide (ngram = term)) as [->|Hne].
      * rewrite decide_True by done. rewrite lookup_insert_eq. simpl.
        rewrite length_app. simpl. lia.
      * rewrite decide_False by congruence.
        by rewrite lookup_insert_ne.
Qed.

Lemma pop_all (ks : list string) (m : gmap string (list Z)) :
  NoDup ks → (∀ k, k ∈ ks ↔ is_Some (m !! k)) →
  for_each (λ (m : gmap string (list Z)) k, snd <$> Dict.pop m k) ks m
  = Return ∅.
Proof.
  revert m. induction ks as [|k ks IH]; intros m Hnd Hks.
  - simpl. f_equal. apply map_empty. intros k. apply eq_None_not_Some.
    rewrite <-Hks. apply not_elem_of_nil.
  - apply NoDup_cons in Hnd as [Hk Hnd].
    destruct (proj1 (Hks k)) as [v Hv]; [by left|].
    cbn [for_each].
    assert (Dict.pop m k = Return (v, delete k m)) as ->
      by (unfold Dict.pop; by rewrite Hv).
    cbn [fmap result_fmap mbind result_bind snd]. apply IH; [done|].
    intros k'. rewrite lookup_delete_is_Some, <-Hks, elem_of_cons.
    split.
    + intros Hin. split; [by intros ->|by right].
    + by intros [Hne [->|?]].
Qed.

(** Read with the [iteritems] of Python 2, the histogram of a corpus in
    which no term has two weights is empty: an empty distribution and an
    empty ranking, for either sort criterion. *)
Lemma corpus_histogram_python2_degenerate corpus dictionary sort_by N :
  (∀ x, x ∈ concat corpus →
        ∃ term, Gensim.getitem dictionary x.1 = Return term) →
  (∀ term, occurrences dictionary term (concat corpus) < 2) →
  corpus_histogram_with python2_iteritems corpus dictionary sort_by N
  = Return (∅, []).
Proof.
  intros Hknown Hocc. unfold corpus_histogram_with.
  set (sorted_corpus :=
         (λ doc : list (nat * Z), sorted (λ x, (- x.2)%Z) doc) <$> corpus).
  assert (concat sorted_corpus ≡ₚ concat corpus) as Hperm.
  { unfold sorted_corpus. induction corpus as [|doc docs IH]; [done|].
    simpl. rewrite sorted_Permutation. f_equiv. apply IH.
    - intros x Hx. apply Hknown. simpl. apply elem_of_app. by right.
    - intros term. specialize (Hocc term). unfold occurrences in *.
      simpl in Hocc. rewrite filter_app, length_app in Hocc. lia. }
  destruct (collect_weights_occurrences dictionary (concat sorted_corpus) ∅)
    as (dist & Hrun & Hlen).
  { intros x Hx. apply Hknown. by rewrite <-Hperm. }
  assert (for_each (collect_weights dictionary) sorted_corpus ∅ = Return dist)
    as ->.
  { unfold collect_weights in *.
    by rewrite (for_each_concat _ sorted_corpus ∅). }
  cbn [mbind result_bind]. unfold python2_iteritems.
  cbn [mbind result_bind].
  assert (∀ kv, kv ∈ Dict.items dist → length kv.2 < 2) as Hshort.
  { intros [term l] Hin%items_elem_of. simpl.
    specialize (Hlen term). rewrite Hin, lookup_empty in Hlen. simpl in Hlen.
    specialize (Hocc term). unfold occurrences in *.
    rewrite Hperm in Hlen. lia. }
  rewrite (filter_all _ _ Hshort).
  rewrite (pop_all _ dist).
  - cbn [mbind result_bind]. unfold Dict.items.
    rewrite map_to_list_empty.
    by destruct (decide (sort_by = "count")),
                (decide (sort_by = "weighted_sum")); simpl;
      rewrite take_nil.
  - apply items_NoDup.
  - intros k. apply (keys_elem_of dist k).
Qed.

(** The regular expression at sample tokens: a digit or a hyphen fails it,
    an n-gram passes, and so does a token that ends in one newline. *)
Lemma re_match_alpha_samples :
  re_match_alpha "co2" = false
  ∧ re_match_alpha "well-known" = false
  ∧ re_match_alpha "quick_fox" = true
  ∧ re_match_alpha (String "f" (String "o" (String "x"
                      (String Str.newline EmptyString)))) = true.
Proof. by vm_compute. Qed.

(** * Further properties of the code *)

(** ** More on loops *)

Lemma for_each_ext {A S : Type} (body1 body2 : S → A → result S) l s :
  (∀ s x, x ∈ l → body1 s x = body2 s x) →
  for_each body1 l s = for_each body2 l s.
Proof.
  revert s. induction l as [|x l IH]; intros s Hext; simpl; [done|].
  rewrite Hext by left. destruct (body2 s x); simpl; [|done].
  apply IH. intros; apply Hext. by right.
Qed.

(** A loop whose body can only raise [e] can only raise [e]. *)
Lemma for_each_result {A S : Type} (body : S → A → result S) (e : exn) l s :
  (∀ s x, (∃ s', body s x = Return s') ∨ body s x = Raise e) →
  (∃ s', for_each body l s = Return s') ∨ for_each body l s = Raise e.
Proof.
  intros Hb. revert s. induction l as [|x l IH]; intros s; simpl; [eauto|].
  destruct (Hb s x) as [[s' ->]| ->]; simpl; [apply IH | by right].
Qed.

Lemma comprehension_result {A B : Type} (f : A → result B) (e : exn) l :
  (∀ x, (∃ y, f x = Return y) ∨ f x = Raise e) →
  (∃ ys, comprehension f l = Return ys) ∨ comprehension f l = Raise e.
Proof.
  intros Hf. induction l as [|x l IH]; simpl; [eauto|].
  destruct (Hf x) as [[y ->]| ->]; simpl; [|by right].
  destruct IH as [[ys ->]| ->]; simpl; eauto.
Qed.

Lemma comprehension_raise {A B : Type} (f : A → result B) (e : exn) l x :
  (∀ x, (∃ y, f x = Return y) ∨ f x = Raise e) →
  x ∈ l → f x = Raise e → comprehension f l = Raise e.
Proof.
  intros Hf Hin Hx. induction l as [|x' l IH]; [by apply elem_of_nil in Hin|].
  simpl. apply elem_of_cons in Hin as [<-|Hin].
  - by rewrite Hx.
  - destruct (Hf x') as [[y ->]| ->]; simpl; [|done].
    by rewrite (IH Hin).
Qed.

Lemma comprehension_length {A B : Type} (f : A → result B) l ys :
  comprehension f l = Return ys → length ys = length l.
Proof.
  revert ys. induction l as [|x l IH]; intros ys; simpl.
  - by intros [= <-].
  - destruct (f x) as [y|e]; simpl; [|done].
    destruct (comprehension f l) as [ys'|e]; simpl; [|done].
    intros [= <-]. simpl. f_equal. by apply IH.
Qed.

(** ** More on n-grams *)

Lemma windows_length {A : Type} n (l : list A) :
  0 < n → length (windows n l) = length l + 1 - n.
Proof.
  intros Hn. induction l as [|x l IH]; simpl; [lia|].
  destruct (decide (n ≤ S (length l))); simpl; [rewrite IH|]; lia.
Qed.

(** Every item of a sequence of at least [n] items lies in a window. *)
Lemma windows_cover {A : Type} n (l : list A) x :
  0 < n → n ≤ length l → x ∈ l → ∃ w, w ∈ windows n l ∧ x ∈ w.
Proof.
  intros Hn. induction l as [|y l IH]; intros Hlen Hx;
    [by apply elem_of_nil in Hx|].
  cbn [windows]. rewrite decide_True by done.
  destruct (decide (n ≤ length l)) as [Hle|Hgt].
  - apply elem_of_cons in Hx as [->|Hx].
    + exists (take n (y :: l)). split; [by left|].
      destruct n; [lia|]. by left.
    + destruct (IH Hle Hx) as (w & Hw & Hxw).
      exists w. split; [by right | done].
  - exists (take n (y :: l)). split; [by left|].
    rewrite take_ge; [done|]. simpl in *. lia.
Qed.

Lemma windows_one {A : Type} (l : list A) : windows 1 l = (λ x, [x]) <$> l.
Proof.
  induction l as [|x l IH]; [done|].
  cbn [windows]. rewrite decide_True by (simpl; lia).
  simpl. by rewrite IH.
Qed.

Lemma pad_sequence_one tokens p : pad_sequence tokens 1 p = Some <$> tokens.
Proof.
  unfold pad_sequence. destruct (pad_left p), (pad_right p); simpl;
    by rewrite ?app_nil_r.
Qed.

Lemma pad_sequence_length tokens n p :
  length (pad_sequence tokens n p)
  = length tokens + (n - 1) * padded_sides p.
Proof.
  unfold pad_sequence, padded_sides.
  rewrite !length_app, length_fmap.
  destruct (pad_left p), (pad_right p);
    rewrite ?length_replicate; simpl; lia.
Qed.

Lemma join_items_result sep items :
  (∃ w, Str.join_items sep items = Return w)
  ∨ Str.join_items sep items = Raise TypeError.
Proof. unfold Str.join_items. destruct (mapM id items); eauto. Qed.

Lemma join_items_None sep items :
  None ∈ items → Str.join_items sep items = Raise TypeError.
Proof.
  intros Hin. unfold Str.join_items.
  destruct (mapM id items) as [ws|] eqn:Hm; [|done].
  apply mapM_Some in Hm.
  apply list_elem_of_lookup in Hin as [i Hi].
  destruct (Forall2_lookup_l _ _ _ _ _ Hm Hi) as (w & _ & Hw). done.
Qed.

Lemma ith_gram_tokens_unigram tokens p :
  ith_gram_tokens tokens 1 p = Return tokens.
Proof.
  unfold ith_gram_tokens, ngrams.
  rewrite pad_sequence_one, windows_one, <-list_fmap_compose.
  induction tokens as [|t tokens IH]; [done|].
  cbn [fmap list_fmap comprehension compose]. cbn in IH. rewrite IH.
  reflexivity.
Qed.

Lemma ith_gram_tokens_result tokens n p :
  (∃ grams, ith_gram_tokens tokens n p = Return grams)
  ∨ ith_gram_tokens tokens n p = Raise TypeError.
Proof.
  unfold ith_gram_tokens. apply comprehension_result.
  intros w. apply join_items_result.
Qed.

Lemma gram_loop_result tokens N p acc :
  (∃ st, gram_loop tokens N p acc = Return st)
  ∨ gram_loop tokens N p acc = Raise TypeError.
Proof.
  unfold gram_loop. apply for_each_result. intros [a b] n.
  destruct (ith_gram_tokens_result tokens n p) as [[grams ->]| ->];
    simpl; eauto.
Qed.

Lemma ith_gram_tokens_bigram_raises tokens p :
  tokens ≠ [] → missing_symbol p →
  ith_gram_tokens tokens 2 p = Raise TypeError.
Proof.
  intros Htok Hmiss. unfold ith_gram_tokens, ngrams.
  assert (None ∈ pad_sequence tokens 2 p) as Hnone.
  { unfold pad_sequence.
    destruct Hmiss as [[Hl Hs]|[Hr Hs]].
    - destruct (pad_left p); [|done]. rewrite Hs. simpl. by left.
    - destruct (pad_right p); [|done]. rewrite Hs. simpl.
      rewrite !elem_of_app. right. right. by left. }
  assert (2 ≤ length (pad_sequence tokens 2 p)) as Hlen.
  { rewrite pad_sequence_length. unfold padded_sides.
    destruct tokens; [done|]. simpl.
    destruct Hmiss as [[Hl _]|[Hr _]].
    - destruct (pad_left p); [|done]. lia.
    - destruct (pad_right p); [|done]. lia. }
  destruct (windows_cover 2 _ None ltac:(lia) Hlen Hnone) as (w & Hw & Hin).
  eapply comprehension_raise; [|exact Hw|by apply join_items_None].
  intros w'. apply join_items_result.
Qed.

Lemma gram_loop_raises tokens N p acc :
  2 ≤ N → tokens ≠ [] → missing_symbol p →
  gram_loop tokens N p acc = Raise TypeError.
Proof.
  intros HN Htok Hmiss. unfold gram_loop, range1.
  destruct N as [|[|N]]; [lia..|]. simpl.
  rewrite ith_gram_tokens_unigram. simpl.
  by rewrite ith_gram_tokens_bigram_raises.
Qed.

(** ** More on Python strings *)

Lemma chars_filter_chars keep s c :
  c ∈ chars (Str.filter_chars keep s) ↔ c ∈ chars s ∧ keep c.
Proof.
  induction s as [|c' s IH]; simpl.
  - rewrite elem_of_nil. tauto.
  - destruct (keep c') eqn:Hk; simpl; rewrite ?elem_of_cons, IH.
    + split; [|tauto]. intros [->|[? ?]]; [|tauto].
      split; [by left | by rewrite Hk].
    + split; [tauto|]. intros [[->|?] Hc]; [|tauto]. by rewrite Hk in Hc.
Qed.

Lemma chars_map_chars f s : chars (Str.map_chars f s) = f <$> chars s.
Proof. induction s as [|c s IH]; simpl; [done|]. by rewrite IH. Qed.

Lemma lstrip_head s c rest :
  Str.lstrip s = String c rest → ¬ Str.isspace c.
Proof.
  induction s as [|c' s IH]; simpl; [done|].
  destruct (Str.isspace c') eqn:Hc'; [done|].
  intros [= <- <-]. rewrite Hc'. exact id.
Qed.

Lemma lstrip_blank s :
  Forall (λ c, Str.isspace c) (chars s) → Str.lstrip s = EmptyString.
Proof.
  induction s as [|c s IH]; simpl; [done|].
  intros [Hc Hs]%Forall_cons. destruct (Str.isspace c); [by apply IH|done].
Qed.

Lemma rstrip_last s c :
  last (chars (Str.rstrip s)) = Some c → ¬ Str.isspace c.
Proof.
  induction s as [|c' s IH]; simpl; [done|].
  destruct (Str.rstrip s) as [|c'' r] eqn:Hr.
  - destruct (Str.isspace c') eqn:Hc'; simpl; [done|].
    intros [= <-]. rewrite Hc'. exact id.
  - simpl. simpl in IH. exact IH.
Qed.

Lemma rstrip_head c s :
  ¬ Str.isspace c → ∃ rest, Str.rstrip (String c s) = String c rest.
Proof.
  intros Hc. simpl. destruct (Str.rstrip s); [|eauto].
  destruct (Str.isspace c); [done|eauto].
Qed.

Lemma strip_head s c rest :
  Str.strip s = String c rest → ¬ Str.isspace c.
Proof.
  unfold Str.strip. destruct (Str.lstrip s) as [|c0 r0] eqn:Hl; [done|].
  pose proof (lstrip_head _ _ _ Hl) as Hc0.
  destruct (rstrip_head c0 r0 Hc0) as [rest' ->]. by intros [= <- _].
Qed.

Lemma lower_char_not_upper c : ¬ Str.isupper (Str.lower_char c).
Proof.
  unfold Str.lower_char. destruct (Str.isupper c) eqn:Hu.
  - unfold Str.isupper, Str.code in *.
    apply andb_true_iff in Hu as [H1%Nat.leb_le H2%Nat.leb_le].
    rewrite nat_ascii_embedding by lia.
    intros [H3%Is_true_true%Nat.leb_le H4%Is_true_true%Nat.leb_le]%andb_True.
    lia.
  - rewrite Hu. exact id.
Qed.

Lemma lower_char_not_punct c :
  ¬ Str.ispunct c → ¬ Str.ispunct (Str.lower_char c).
Proof.
  unfold Str.lower_char. destruct (Str.isupper c) eqn:Hu; [|done].
  intros _. unfold Str.isupper, Str.ispunct, Str.code in *.
  apply andb_true_iff in Hu as [H1%Nat.leb_le H2%Nat.leb_le].
  rewrite nat_ascii_embedding by lia.
  intros Hp. apply Is_true_true in Hp.
  rewrite !orb_true_iff, !andb_true_iff, !Nat.leb_le in Hp. lia.
Qed.

(** ** More on the tokenizer *)

Section TokenizerMore.
Context `{nltk : NLTK}.

Lemma gram_loop_unigram tokens p acc :
  gram_loop tokens 1 p acc = Return (acc ++ tokens, tokens).
Proof.
  unfold gram_loop, range1. simpl. by rewrite ith_gram_tokens_unigram.
Qed.

(** The sentence loop when every sentence has a known outcome of the loop
    over the gram orders. *)
Lemma sentence_loop_pure text N p sents (toks grams : string → list string) :
  sent_tokenize (clean_line text) = Return sents →
  (∀ s, s ∈ sents → tokens_of_sentence s = Return (toks s)) →
  (∀ s acc, s ∈ sents →
     gram_loop (toks s) N p acc = Return (acc ++ grams s, grams s)) →
  sentence_loop text N p = Return (concat (grams <$> sents), grams <$> sents).
Proof.
  intros Hs Ht Hg. unfold sentence_loop. rewrite Hs. simpl.
  rewrite (for_each_pure _ (λ st s, (st.1 ++ grams s, st.2 ++ [grams s]))).
  - f_equal.
    assert (∀ l (a : list string) (b : list (list string)),
      foldl (λ st s, (st.1 ++ grams s, st.2 ++ [grams s])) (a, b) l
      = (a ++ concat (grams <$> l), b ++ (grams <$> l))) as Hfold.
    { induction l as [|s l IH]; intros a b; simpl.
      - by rewrite !app_nil_r.
      - rewrite IH. simpl. by rewrite <-!(assoc_L (++)). }
    by rewrite Hfold.
  - intros [a b] s Hin. rewrite (Ht s Hin). simpl.
    by rewrite (Hg s a Hin).
Qed.

(** X1: with [N = 1] the padding options play no part, supplied or not: the
    flat tokens of a line are the words kept of its sentences, in order, and
    the sentence-structured tokens are the lists of those words. *)
Theorem string2tokens_unigrams text p sents (toks : string → list string) :
  sent_tokenize (clean_line text) = Return sents →
  (∀ s, s ∈ sents → tokens_of_sentence s = Return (toks s)) →
  string2tokens text 1 p false = Return (Str <$> concat (toks <$> sents))
  ∧ string2tokens text 1 p true = Return (Lst <$> (toks <$> sents)).
Proof.
  intros Hs Ht. unfold string2tokens.
  rewrite (sentence_loop_pure text 1 p sents toks toks Hs Ht); [done|].
  intros s acc _. apply gram_loop_unigram.
Qed.

(** X2: when bigrams or higher are asked for and a side is padded without a
    pad symbol, the tokenization of a line that has a sentence with at least
    one kept word raises [TypeError], in either mode: the [None] pad cannot
    be joined. *)
Theorem string2tokens_missing_pad_symbol text N p keep sents
    (toks : string → list string) s :
  2 ≤ N → missing_symbol p →
  sent_tokenize (clean_line text) = Return sents →
  (∀ s, s ∈ sents → tokens_of_sentence s = Return (toks s)) →
  s ∈ sents → toks s ≠ [] →
  string2tokens text N p keep = Raise TypeError.
Proof.
  intros HN Hmiss Hs Ht Hin Hne. unfold string2tokens, sentence_loop.
  rewrite Hs. simpl.
  match goal with
  | |- context [for_each ?body sents _] =>
      assert (∀ start, for_each body sents start = Raise TypeError) as ->;
        [|done]
  end.
  clear Hs. induction sents as [|s0 sents IH]; intros [a b];
    [by apply elem_of_nil in Hin|].
  simpl. rewrite (Ht s0) by left. simpl.
  destruct (gram_loop_result (toks s0) N p a) as [[[a' g] Hrun]|Hrun];
    rewrite Hrun; simpl; [|done].
  apply IH.
  - intros s' Hs'. apply Ht. by right.
  - apply elem_of_cons in Hin as [->|Hin]; [|done].
    by rewrite (gram_loop_raises (toks s0) N p a HN Hne Hmiss) in Hrun.
Qed.

(** X3: for an order [n >= 1] and supplied pad symbols, a sentence of [k]
    kept words gives [k + (n - 1) * sides + 1 - n] n-grams of order [n],
    where [sides] counts the padded sides: none when [k < n] without
    padding, [k + 1 - n] otherwise, and [k + n - 1] with both sides
    padded. *)
Theorem ith_gram_tokens_count tokens n p :
  1 ≤ n → symbols_given p →
  ∃ grams, ith_gram_tokens tokens n p = Return grams
    ∧ length grams = length tokens + (n - 1) * padded_sides p + 1 - n.
Proof.
  intros Hn Hp. rewrite ith_gram_tokens_given by done.
  eexists. split; [reflexivity|].
  rewrite length_fmap, windows_length by lia.
  rewrite <-(length_fmap Some (padded tokens n p)).
  by rewrite <-pad_sequence_given, pad_sequence_length.
Qed.

(** X4: with [N = 0] the loop over the gram orders is empty: the flat token
    list of every line is empty and the sentence-structured one holds one
    empty list per sentence, whatever the padding. *)
Theorem string2tokens_order_zero text p sents (toks : string → list string) :
  sent_tokenize (clean_line text) = Return sents →
  (∀ s, s ∈ sents → tokens_of_sentence s = Return (toks s)) →
  string2tokens text 0 p false = Return []
  ∧ string2tokens text 0 p true
    = Return (replicate (length sents) (Lst [])).
Proof.
  intros Hs Ht. unfold string2tokens.
  rewrite (sentence_loop_pure text 0 p sents toks (λ _, []) Hs Ht).
  - assert (concat ((λ _ : string, @nil string) <$> sents) = []) as ->.
    { clear. by induction sents as [|s l IH]. }
    cbn [mbind result_bind]. split; [done|]. f_equal. clear.
    induction sents as [|s l IH]; [done|]. cbn. cbn in IH. by rewrite IH.
  - intros s acc _. unfold gram_loop. simpl. by rewrite app_nil_r.
Qed.

Lemma clean_line_blank line : blank line → clean_line line = EmptyString.
Proof.
  intros Hb. unfold clean_line, Str.strip.
  rewrite lstrip_blank; [done|].
  apply Forall_forall. intros c [Hc _]%chars_filter_chars.
  by apply (proj1 (Forall_forall _ _) Hb).
Qed.

(** X5: a line of white space only (or an empty line) is handed to the
    sentence tokenizer as the empty string; when that has no sentence, the
    line has no token, for every order and padding and in either mode. *)
Theorem string2tokens_blank_line line N p keep :
  blank line →
  sent_tokenize EmptyString = Return [] →
  clean_line line = EmptyString
  ∧ string2tokens line N p keep = Return [].
Proof.
  intros Hb Hs. pose proof (clean_line_blank line Hb) as Hc.
  split; [done|]. unfold string2tokens, sentence_loop.
  rewrite Hc, Hs. simpl. by destruct keep.
Qed.

End TokenizerMore.

(** X6: the text handed to the sentence tokenizer holds no newline and
    neither starts nor ends with white space. *)
Theorem clean_line_trimmed text :
  (Str.newline ∉ chars (clean_line text))
  ∧ (∀ c, head (chars (clean_line text)) = Some c → ¬ Str.isspace c)
  ∧ (∀ c, last (chars (clean_line text)) = Some c → ¬ Str.isspace c).
Proof.
  unfold clean_line. split; [|split].
  - unfold Str.strip.
    assert (∀ s c, c ∈ chars (Str.lstrip s) → c ∈ chars s) as Hl.
    { induction s as [|c' s IH]; intros c; simpl; [done|].
      destruct (Str.isspace c'); [|done]. intros ?%IH. by right. }
    assert (∀ s c, c ∈ chars (Str.rstrip s) → c ∈ chars s) as Hr.
    { induction s as [|c' s IH]; intros c; simpl; [done|].
      destruct (Str.rstrip s) as [|c'' r].
      - destruct (Str.isspace c'); simpl; [by intros ?%elem_of_nil|].
        intros ->%list_elem_of_singleton. by left.
      - simpl. intros [->|Hin]%elem_of_cons; [by left|].
        right. by apply IH. }
    intros Hin%Hr%Hl%chars_filter_chars. destruct Hin as [_ Hk].
    by rewrite bool_decide_true in Hk.
  - intros c Hc.
    destruct (Str.strip (Str.remove_newlines text)) as [|c' rest] eqn:Hs;
      [done|].
    simpl in Hc. simplify_eq. by eapply strip_head.
  - intros c. unfold Str.strip. apply rstrip_last.
Qed.

(** X7: the text handed to the word tokenizer holds no punctuation
    character, so no underscore either, and no upper-case ASCII letter. *)
Theorem word_tokenizer_input sent c :
  c ∈ chars (Str.lower (Str.remove_punctuation sent)) →
  ¬ Str.ispunct c ∧ ¬ Str.isupper c ∧ c ≠ Str.underscore.
Proof.
  unfold Str.lower, Str.remove_punctuation. rewrite chars_map_chars.
  intros (c0 & -> & [_ Hk]%chars_filter_chars)%list_elem_of_fmap.
  assert (¬ Str.ispunct (Str.lower_char c0)) as Hp.
  { apply lower_char_not_punct.
    destruct (Str.ispunct c0); [done | exact id]. }
  split; [done|]. split; [apply lower_char_not_upper|].
  intros Heq. rewrite Heq in Hp. by apply Hp.
Qed.

(** ** More on the document stream *)

Section StreamMore.
Context `{nltk : NLTK}.



(** X9: a fresh stream prints a progress notice exactly at the counts that
    are positive multiples of 1000 and below the number of lines; a source
    of at most 1000 lines prints none. *)
Theorem Documents_iter_progress lines n p keep tokenized c :
  Progress c
  ∈ printed (Documents_iter (Documents_init lines n p keep tokenized))
  ↔ 0 < c < length lines ∧ c mod 1000 = 0.
Proof.
  rewrite Documents_iter_printed.
  set (self := Documents_init lines n p keep tokenized).
  change (iter_object self) with lines. change (counter self) with 0.
  assert (∀ i line, Progress c ∈ notices self i line
                    ↔ c = i ∧ 0 < i ∧ i mod 1000 = 0) as Hnot.
  { intros i line. unfold notices. rewrite elem_of_app.
    assert (Progress c ∉ match tokenize self line with
                         | Return _ => []
                         | Raise e0 => [PrintLine line; Failure i e0]
                         end) as Hno.
    { destruct (tokenize self line); [apply not_elem_of_nil|].
      intros [?|[?|?%elem_of_nil]%elem_of_cons]%elem_of_cons; done. }
    destruct (Nat.ltb_spec 0 i) as [H0|H0];
      destruct (Nat.eqb_spec (i mod 1000) 0) as [Hm|Hm]; simpl.
    - rewrite list_elem_of_singleton. split.
      + intros [[= ->]|?]; [done|by destruct Hno].
      + intros (-> & _). by left.
    - rewrite elem_of_nil. split; [tauto|]. intros (_ & _ & ?). done.
    - rewrite elem_of_nil. split; [tauto|]. intros (_ & ? & _). lia.
    - rewrite elem_of_nil. split; [tauto|]. intros (_ & ? & _). lia. }
  rewrite elem_of_concat. split.
  - intros (l & Hc & Hl). apply list_elem_of_lookup in Hl as [i Hl].
    rewrite list_lookup_imap in Hl.
    destruct (lines !! i) as [line|] eqn:Hi; [|done].
    simpl in Hl. simplify_eq. apply Hnot in Hc as (-> & H0 & Hm).
    apply lookup_lt_Some in Hi. lia.
  - intros ([H0 Hlt] & Hm).
    destruct (lookup_lt_is_Some_2 lines c Hlt) as [line Hline].
    exists (notices self c line). split.
    + by apply Hnot.
    + apply list_elem_of_lookup. exists c.
      by rewrite list_lookup_imap, Hline.
Qed.

(** X10: [string2sents] returns the sentences found by the sentence
    tokenizer in the cleaned text, in their order, and raises what the
    sentence tokenizer raises. *)
Theorem string2sents_sentences text :
  string2sents text
  = fmap (M:=list) Str <$> sent_tokenize (clean_line text).
Proof.
  unfold string2sents. destruct (sent_tokenize (clean_line text)) as [sents|e];
    [|done].
  simpl. rewrite (for_each_pure _ (λ acc sent, acc ++ [Str sent])) by done.
  f_equal.
  assert (∀ acc, foldl (λ acc sent, acc ++ [Str sent]) acc sents
                 = acc ++ (Str <$> sents)) as Hfold.
  { induction sents as [|s l IH]; intros acc; simpl.
    - by rewrite app_nil_r.
    - by rewrite IH, <-(assoc_L (++)). }
  by rewrite Hfold.
Qed.

End StreamMore.

(** ** More on bags of words *)

Lemma count_words_counts tokens :
  ∃ counter, count_words (Str <$> tokens) = Return counter
    ∧ ∀ w f, counter !! w = Some f ↔ f = count w tokens ∧ 0 < f.
Proof.
  unfold count_words.
  assert (∀ (c0 : gmap string nat),
    ∃ counter,
      for_each
        (λ counter w,
           match w with
           | Str w => Return (<[w := S (default 0 (counter !! w))]> counter)
           | Lst _ => Raise TypeError
           end) (Str <$> tokens) c0 = Return counter
      ∧ (∀ w, default 0 (counter !! w)
              = default 0 (c0 !! w) + count w tokens)
      ∧ (∀ w, is_Some (counter !! w)
              ↔ is_Some (c0 !! w) ∨ 0 < count w tokens)) as Hgen.
  { induction tokens as [|t tokens IH]; intros c0.
    - exists c0. split; [done|]. unfold count. simpl.
      split; [intros w; lia|]. intros w. intuition lia.
    - destruct (IH (<[t := S (default 0 (c0 !! t))]> c0))
        as (counter & Hrun & Hval & Hdom).
      exists counter. split; [done|]. unfold count in *. split.
      + intros w. rewrite Hval, filter_cons.
        destruct (decide (w = t)) as [->|Hne].
        * rewrite lookup_insert_eq. simpl. lia.
        * by rewrite lookup_insert_ne.
      + intros w. rewrite Hdom, lookup_insert_is_Some, filter_cons.
        destruct (decide (w = t)) as [->|Hne]; simpl.
        * split; [intros _; right; lia | intros _; left; by left].
        * split; [intros [[?|[_ ?]]|?]; [congruence|by left|by right]|].
          intros [?|?]; [left; right; split; [congruence|done] | by right]. }
  destruct (Hgen ∅) as (counter & Hrun & Hval & Hdom).
  exists counter. split; [done|]. intros w f.
  specialize (Hval w). specialize (Hdom w).
  rewrite lookup_empty in Hval, Hdom. simpl in Hval. split.
  - intros Hf. rewrite Hf in Hval. simpl in Hval. subst f.
    split; [done|]. destruct Hdom as [Hd _].
    destruct Hd as [[? ?]|?]; [by rewrite Hf|done..].
  - intros [-> Hpos]. destruct Hdom as [_ [f Hf]]; [by right|].
    rewrite Hf in Hval. simpl in Hval. by subst f.
Qed.

Lemma of_pairs_lookup_elem `{Countable K} {V : Type} (l : list (K * V)) k v :
  Dict.of_pairs l !! k = Some v → (k, v) ∈ l.
Proof.
  induction l as [|[k' v'] l IH] using rev_ind; [done|].
  rewrite of_pairs_snoc, elem_of_app, list_elem_of_singleton.
  destruct (decide (k' = k)) as [->|Hne].
  - rewrite lookup_insert_eq. intros [= ->]. by right.
  - rewrite lookup_insert_ne by done. intros ?%IH. by left.
Qed.

Lemma NoDup_omap_inj {A B : Type} (f : A → option B) (l : list A) :
  NoDup l →
  (∀ x y z, x ∈ l → y ∈ l → f x = Some z → f y = Some z → x = y) →
  NoDup (omap f l).
Proof.
  induction l as [|x l IH]; intros Hnd Hinj; simpl; [constructor|].
  apply NoDup_cons in Hnd as [Hx Hnd].
  assert (NoDup (omap f l)) as Hrest.
  { apply IH; [done|]. intros y1 y2 z H1 H2. apply Hinj; by right. }
  destruct (f x) as [z|] eqn:Hfx; [|done].
  apply NoDup_cons. split; [|done].
  intros (y & Hy & Hfy)%list_elem_of_omap.
  assert (x = y) as -> by (eapply Hinj; [by left | by right | done..]).
  done.
Qed.

(** With distinct ids the bag holds, under the id of each known word of the
    document, the count of that word. *)
Lemma bow_lookup counter (token2id : gmap string nat) i f :
  (∀ t1 t2 i, token2id !! t1 = Some i → token2id !! t2 = Some i → t1 = t2) →
  bow counter token2id !! i = Some f
  ↔ ∃ w, counter !! w = Some f ∧ token2id !! w = Some i.
Proof.
  intros Hinj. unfold bow. rewrite of_pairs_lookup.
  - rewrite list_elem_of_omap. split.
    + intros ([w f'] & Hin%items_elem_of & Hg). simpl in Hg.
      apply fmap_Some in Hg as (i0 & Hw & [= -> ->]). eauto.
    + intros (w & Hf & Hw). exists (w, f). rewrite items_elem_of.
      split; [done|]. simpl. by rewrite Hw.
  - assert ((omap (λ x : string * nat,
                     (λ i : nat, (i, x.2)) <$> token2id !! x.1)
               (Dict.items counter)).*1
            = omap (λ x : string * nat, token2id !! x.1) (Dict.items counter))
      as ->.
    { induction (Dict.items counter) as [|[w f'] l IH]; [done|]. simpl.
      destruct (token2id !! w); simpl; [f_equal|]; exact IH. }
    apply NoDup_omap_inj; [apply NoDup_map_to_list|].
    intros [w1 f1] [w2 f2] z H1%items_elem_of H2%items_elem_of Hz1 Hz2.
    simpl in *. assert (w1 = w2) as -> by (by eapply Hinj). by simplify_eq.
Qed.

Global Instance by_id_total : Total by_id.
Proof. intros x y. unfold by_id. lia. Qed.

Global Instance by_id_trans : Transitive by_id.
Proof. intros x y z. unfold by_id. lia. Qed.

(** [doc2bow] without update on a flat document: the dictionary is left as
    it is and the bag is sorted by id. *)
Lemma doc2bow_lookup d tokens :
  ∃ counter,
    count_words (Str <$> tokens) = Return counter
    ∧ doc2bow d (Str <$> tokens) false
      = Return (d, merge_sort by_id (Dict.items (bow counter (token2id d))))
    ∧ ∀ w f, counter !! w = Some f ↔ f = count w tokens ∧ 0 < f.
Proof.
  destruct (count_words_counts tokens) as (counter & Hrun & Hc).
  exists counter. split; [done|]. split; [|done].
  unfold doc2bow. by rewrite Hrun.
Qed.

Section CorpusMore.
Context `{nltk : NLTK}.

Lemma flatten_outcome self line :
  is_tokenzied self = true → keep_sents self = false →
  outcome self line = Str <$> flatten (outcome self line).
Proof.
  intros Ht Hk. destruct (outcome_flat self line Ht Hk) as [tokens ->].
  by rewrite flatten_Str.
Qed.

(** The rows of [corpus], line by line. *)
Lemma corpus_rows lines d n p :
  ∃ rows,
    corpus lines d n p = Return rows
    ∧ length rows = length lines
    ∧ ∀ j line, lines !! j = Some line →
        ∃ counter,
          count_words (outcome (Documents_init lines n p false true) line)
          = Return counter
          ∧ rows !! j
            = Some (merge_sort by_id
                      (Dict.items (bow counter (token2id d))))
          ∧ ∀ w f, counter !! w = Some f
              ↔ f = count w (flatten
                     (outcome (Documents_init lines n p false true) line))
                ∧ 0 < f.
Proof.
  unfold corpus. rewrite Documents_iter_yielded.
  set (self := Documents_init lines n p false true).
  change (iter_object self) with lines.
  set (row := λ line,
    match count_words (outcome self line) with
    | Return counter =>
        merge_sort by_id (Dict.items (bow counter (token2id d)))
    | Raise _ => []
    end).
  assert (∀ line, ∃ counter,
    count_words (outcome self line) = Return counter
    ∧ (snd <$> doc2bow d (outcome self line) false) = Return (row line)
    ∧ ∀ w f, counter !! w = Some f
        ↔ f = count w (flatten (outcome self line)) ∧ 0 < f) as Hline.
  { intros line. unfold row.
    destruct (outcome_flat self line eq_refl eq_refl) as [tokens ->].
    rewrite flatten_Str.
    destruct (doc2bow_lookup d tokens) as (counter & Hc & Hrun & Hcount).
    exists counter. rewrite Hc, Hrun. done. }
  exists (row <$> lines). split; [|split].
  - rewrite (comprehension_pure _ (λ doc,
      match count_words doc with
      | Return counter =>
          merge_sort by_id (Dict.items (bow counter (token2id d)))
      | Raise _ => []
      end)).
    + by rewrite <-list_fmap_compose.
    + intros doc (line & -> & _)%list_elem_of_fmap.
      destruct (Hline line) as (counter & Hc & Hrun & _).
      rewrite Hrun. unfold row. done.
  - by rewrite length_fmap.
  - intros j line Hj. destruct (Hline line) as (counter & Hc & _ & Hcount).
    exists counter. split; [done|]. split; [|done].
    rewrite list_lookup_fmap, Hj. simpl. unfold row. by rewrite Hc.
Qed.

(** X11: [corpus] never raises and returns one row per line, in the order
    of the lines.  Every id in a row is an id of the dictionary (words the
    dictionary does not hold are dropped), every count is positive, the
    rows are sorted by id, and a line whose tokenization raises gives the
    empty row. *)
Theorem corpus_shape lines d n p :
  ∃ rows,
    corpus lines d n p = Return rows
    ∧ length rows = length lines
    ∧ (∀ j row i c, rows !! j = Some row → (i, c) ∈ row →
         i ∈ ids d ∧ 0 < c)
    ∧ (∀ j row, rows !! j = Some row → Sorted by_id row)
    ∧ (∀ j line e, lines !! j = Some line →
         tokenize (Documents_init lines n p false true) line = Raise e →
         rows !! j = Some []).
Proof.
  destruct (corpus_rows lines d n p) as (rows & Hrun & Hlen & Hrows).
  exists rows. split; [done|]. split; [done|]. split; [|split].
  - intros j row i c Hj Hin.
    destruct (lookup_lt_is_Some_2 lines j) as [line Hline].
    { rewrite <-Hlen. by eapply lookup_lt_Some. }
    destruct (Hrows j line Hline) as (counter & _ & Hrow & Hcount).
    rewrite Hj in Hrow. simplify_eq.
    rewrite merge_sort_Permutation in Hin. apply items_elem_of in Hin.
    assert (is_Some (bow counter (token2id d) !! i)) as Hsome by eauto.
    apply bow_is_Some in Hsome as (w & Hw & Hi). split.
    + apply elem_of_map_img. eauto.
    + unfold bow in Hin.
      assert ((i, c) ∈ omap (λ x : string * nat,
                 (λ i : nat, (i, x.2)) <$> token2id d !! x.1)
                (Dict.items counter)) as Hpair.
      { by apply of_pairs_lookup_elem. }
      apply list_elem_of_omap in Hpair as ([w' f] & Hitem%items_elem_of & Hg).
      simpl in Hg. apply fmap_Some in Hg as (i0 & _ & [= -> ->]).
      by apply Hcount in Hitem as [_ ?].
  - intros j row Hj.
    destruct (lookup_lt_is_Some_2 lines j) as [line Hline].
    { rewrite <-Hlen. by eapply lookup_lt_Some. }
    destruct (Hrows j line Hline) as (counter & _ & Hrow & _).
    rewrite Hj in Hrow. simplify_eq. apply Sorted_merge_sort, _.
  - intros j line e Hline He.
    destruct (Hrows j line Hline) as (counter & Hc & Hrow & _).
    rewrite Hrow. unfold outcome in Hc. rewrite He in Hc.
    injection Hc as <-. unfold bow, Dict.items.
    rewrite map_to_list_empty. simpl. unfold Dict.of_pairs. simpl.
    by rewrite map_to_list_empty.
Qed.

(** X12: count fidelity.  When no two terms of the dictionary share an id,
    the row of a line holds the pair of an id and a count exactly when the
    term with that id occurs in the tokens of the line that many times, at
    least once; no id occurs twice in a row. *)
Theorem corpus_counts lines d n p :
  (∀ t1 t2 i,
     token2id d !! t1 = Some i → token2id d !! t2 = Some i → t1 = t2) →
  ∃ rows,
    corpus lines d n p = Return rows
    ∧ ∀ j line, lines !! j = Some line →
        ∃ row, rows !! j = Some row
          ∧ NoDup row.*1
          ∧ ∀ i c, (i, c) ∈ row
              ↔ ∃ t, token2id d !! t = Some i
                     ∧ c = count t (flatten (outcome
                             (Documents_init lines n p false true) line))
                     ∧ 0 < c.
Proof.
  intros Hinj.
  destruct (corpus_rows lines d n p) as (rows & Hrun & Hlen & Hrows).
  exists rows. split; [done|]. intros j line Hline.
  destruct (Hrows j line Hline) as (counter & _ & Hrow & Hcount).
  eexists. split; [exact Hrow|]. split.
  - rewrite merge_sort_Permutation. apply items_NoDup.
  - intros i c. rewrite merge_sort_Permutation, items_elem_of.
    rewrite (bow_lookup _ _ _ _ Hinj). split.
    + intros (t & Hc%Hcount & Ht). exists t. tauto.
    + intros (t & Ht & Hc & Hpos). exists t. split; [|done].
      apply Hcount. tauto.
Qed.

End CorpusMore.

(** ** More on the vocabulary *)

Lemma compactify_fields d d' :
  compactify d = Return d' →
  id2token d' = ∅ ∧ num_docs d' = num_docs d
  ∧ num_pos d' = num_pos d ∧ num_nnz d' = num_nnz d.
Proof.
  unfold compactify. intros H.
  repeat match type of H with
  | context [Dict.comprehend ?f ?m] =>
      destruct (Dict.comprehend f m); cbn [mbind result_bind] in H; [|done]
  end.
  by injection H as <-.
Qed.

Lemma filter_tokens_fields d bad_ids d' :
  filter_tokens d bad_ids = Return d' →
  id2token d' = ∅ ∧ num_docs d' = num_docs d
  ∧ num_pos d' = num_pos d ∧ num_nnz d' = num_nnz d.
Proof. unfold filter_tokens. by intros H%compactify_fields. Qed.

Lemma doc2bow_num_docs d doc d' pairs :
  doc2bow d doc true = Return (d', pairs) → num_docs d' = num_docs d + 1.
Proof.
  unfold doc2bow. destruct (count_words doc); cbn [mbind result_bind]; [|done].
  by intros [= <- _].
Qed.

Lemma add_documents_num_docs d docs d' :
  add_documents d docs = Return d' → num_docs d' = num_docs d + length docs.
Proof.
  unfold add_documents. revert d.
  induction docs as [|doc docs IH]; intros d; simpl.
  - intros [= <-]. lia.
  - destruct (doc2bow d doc true) as [[d1 pairs]|e] eqn:Hdoc; simpl; [|done].
    intros Hrest%IH. apply doc2bow_num_docs in Hdoc. lia.
Qed.

(** The reverse mapping of a dictionary whose cache is empty and whose terms
    have distinct ids. *)
Lemma getitem_lookup d i t :
  id2token d = ∅ →
  (∀ t1 t2 i,
     token2id d !! t1 = Some i → token2id d !! t2 = Some i → t1 = t2) →
  Gensim.getitem d i = Return t ↔ token2id d !! t = Some i.
Proof.
  intros Hcache Hinj. unfold Gensim.getitem, Dict.getitem. rewrite Hcache.
  destruct (decide (size (∅ : gmap nat string) = size (token2id d)))
    as [Hsize|Hsize].
  - rewrite lookup_empty. rewrite map_size_empty in Hsize.
    symmetry in Hsize. apply map_size_empty_inv in Hsize.
    rewrite Hsize, lookup_empty. done.
  - destruct (Dict.of_pairs _ !! i) as [t'|] eqn:Hl.
    + apply of_pairs_lookup_elem in Hl.
      apply list_elem_of_fmap in Hl as ([t0 i0] & [= -> ->] & Hin%items_elem_of).
      split.
      * by intros [= <-].
      * intros Ht. f_equal. by eapply Hinj.
    + split; [done|]. intros Ht.
      assert (is_Some (Dict.of_pairs
                ((λ kv : string * nat, (kv.2, kv.1))
                   <$> Dict.items (token2id d)) !! i)) as [? Hsome];
        [|congruence].
      apply of_pairs_is_Some, list_elem_of_fmap. exists (i, t).
      split; [done|]. apply list_elem_of_fmap. exists (t, i).
      by rewrite items_elem_of.
Qed.

Lemma getitem_KeyError d i :
  id2token d = ∅ → i ∉ ids d → Gensim.getitem d i = Raise KeyError.
Proof.
  intros Hcache Hi. unfold Gensim.getitem, Dict.getitem. rewrite Hcache.
  destruct (decide _); [by rewrite lookup_empty|].
  destruct (Dict.of_pairs _ !! i) as [t|] eqn:Hl; [|done].
  apply of_pairs_lookup_elem in Hl.
  apply list_elem_of_fmap in Hl as ([t0 i0] & [= -> ->] & Hin%items_elem_of).
  destruct Hi. apply elem_of_map_img. eauto.
Qed.

Section VocabularyMore.
Context `{nltk : NLTK}.

Lemma vocabulary_fields lines min_term_freq n p d :
  vocabulary lines min_term_freq n p = Return d →
  id2token d = ∅ ∧ num_docs d = length lines.
Proof.
  unfold vocabulary.
  destruct (add_documents _ _) as [d0|e] eqn:H0; cbn [mbind result_bind];
    [|done].
  destruct (filter_tokens d0 _) as [d1|e] eqn:H1; cbn [mbind result_bind];
    [|done].
  intros (Hc & Hn & _)%compactify_fields.
  apply filter_tokens_fields in H1 as (_ & Hn1 & _).
  apply add_documents_num_docs in H0.
  rewrite Documents_iter_yielded, length_fmap in H0. simpl in H0.
  split; [done|]. lia.
Qed.



(** X15: id-to-term lookup inverts term-to-id lookup in the dictionary
    returned by [vocabulary]: [dictionary[i]] is the term [t] exactly when
    [t] has the id [i], and an id at or beyond the number of terms raises
    [KeyError]. *)
Theorem vocabulary_getitem lines min_term_freq n p :
  ∃ d, vocabulary lines min_term_freq n p = Return d
    ∧ (∀ t i, Gensim.getitem d i = Return t ↔ token2id d !! t = Some i)
    ∧ (∀ i, size (token2id d) ≤ i → Gensim.getitem d i = Raise KeyError).
Proof.
  destruct (vocabulary_spec lines min_term_freq n p)
    as (d & Hrun & Hwf & Hc & _).
  destruct (vocabulary_fields _ _ _ _ _ Hrun) as [Hcache _].
  exists d. split; [done|]. split.
  - intros t i. apply getitem_lookup; [done | apply (wf_inj _ Hwf)].
  - intros i Hi. apply getitem_KeyError; [done|].
    intros (t & Ht)%elem_of_map_img.
    assert (i < size (token2id d)); [|lia].
    apply (compact_ids d i Hc). eauto.
Qed.

(** X16: from an empty source [vocabulary] returns the empty dictionary and
    [corpus] the empty corpus, whatever the other arguments. *)
Theorem empty_source min_term_freq n p d :
  vocabulary [] min_term_freq n p = Return Gensim.empty
  ∧ corpus [] d n p = Return [].
Proof. split; [by vm_compute | done]. Qed.

End VocabularyMore.

(** ** More on compaction *)

Lemma StronglySorted_lookup_lt {A : Type} (R : relation A) (l : list A)
    j1 j2 x y :
  StronglySorted R l → l !! j1 = Some x → l !! j2 = Some y → j1 < j2 → R x y.
Proof.
  intros Hs. revert j1 j2.
  induction Hs as [|z l Hs IH Hall]; intros j1 j2 H1 H2 Hlt; [done|].
  destruct j2 as [|j2]; [lia|]. destruct j1 as [|j1]; simpl in *.
  - simplify_eq. apply (proj1 (Forall_forall _ _) Hall).
    by eapply list_elem_of_lookup_2.
  - apply (IH j1 j2); [done..|lia].
Qed.

Lemma Sorted_seq start len : Sorted (≤) (seq start len).
Proof.
  revert start. induction len as [|len IH]; intros start; simpl.
  - constructor.
  - constructor; [apply IH|]. destruct len; simpl; constructor. lia.
Qed.

Lemma size_map_img_inj (m : gmap string nat) :
  (∀ t1 t2 i, m !! t1 = Some i → m !! t2 = Some i → t1 = t2) →
  size (map_img m : gset nat) = size m.
Proof.
  intros Hinj.
  assert ((map_img m : gset nat) = list_to_set (Dict.values m)) as ->.
  { apply set_eq. intros i. by rewrite elem_of_list_to_set, values_elem_of. }
  rewrite size_list_to_set by (by apply values_NoDup).
  apply values_length.
Qed.

(** The renumbering keeps the order of the ids. *)
Lemma renum_order (m : gmap string nat) i1 i2 :
  (∀ t1 t2 i, m !! t1 = Some i → m !! t2 = Some i → t1 = t2) →
  i1 ∈ (map_img m : gset nat) → i2 ∈ (map_img m : gset nat) →
  default 0 (idmap_of m !! i1) < default 0 (idmap_of m !! i2) ↔ i1 < i2.
Proof.
  intros Hinj H1 H2.
  destruct (renum_defined m Hinj i1 H1) as [E1 _].
  destruct (renum_defined m Hinj i2 H2) as [E2 _].
  set (j1 := default 0 (idmap_of m !! i1)) in *.
  set (j2 := default 0 (idmap_of m !! i2)) in *.
  apply idmap_of_lookup in E1; [|done]. apply idmap_of_lookup in E2; [|done].
  pose proof (StronglySorted_merge_sort (≤) (Dict.values m)) as Hs.
  split.
  - intros Hlt.
    pose proof (StronglySorted_lookup_lt _ _ _ _ _ _ Hs E1 E2 Hlt) as Hle.
    destruct (decide (i1 = i2)) as [->|Hne]; [|lia].
    assert (j1 = j2); [|lia].
    eapply NoDup_lookup; [|exact E1|exact E2].
    rewrite merge_sort_Permutation. by apply values_NoDup.
  - intros Hlt. destruct (decide (j1 < j2)) as [?|Hge]; [done|].
    destruct (decide (j1 = j2)) as [Heq|Hne].
    + rewrite Heq in E1. simplify_eq. lia.
    + assert (j2 < j1) as Hgt by lia.
      pose proof (StronglySorted_lookup_lt _ _ _ _ _ _ Hs E2 E1 Hgt). lia.
Qed.

(** On a dictionary whose ids are already 0, ..., k-1 the renumbering is
    the identity. *)
Lemma renum_compact (m : gmap string nat) i :
  dense m → i ∈ (map_img m : gset nat) → default 0 (idmap_of m !! i) = i.
Proof.
  intros [Hinj Himg] Hi.
  assert (merge_sort (≤) (Dict.values m) = seq 0 (size m)) as Hsorted.
  { apply (Sorted_unique (≤)).
    - apply Sorted_merge_sort, _.
    - apply Sorted_seq.
    - rewrite merge_sort_Permutation. apply NoDup_Permutation.
      + by apply values_NoDup.
      + apply NoDup_seq.
      + intros j. rewrite values_elem_of, Himg, elem_of_set_seq, elem_of_seq.
        lia. }
  destruct (renum_defined m Hinj i Hi) as [E _].
  apply idmap_of_lookup in E; [|done]. rewrite Hsorted in E.
  apply lookup_seq in E as [E _]. simpl in E. lia.
Qed.

Lemma compactify_compact d :
  well_formed d → compact d →
  compactify d
  = Return {| token2id := token2id d; id2token := ∅; cfs := cfs d;
              dfs := dfs d; num_docs := num_docs d; num_pos := num_pos d;
              num_nnz := num_nnz d |}.
Proof.
  intros Hwf Hc.
  destruct (compactify_spec d Hwf) as (d' & Hrun & Ht & Hd & Hcf).
  destruct (compactify_fields d d' Hrun) as (Hi & Hn1 & Hn2 & Hn3).
  assert (dense (token2id d)) as Hdense by (split; [apply Hwf | done]).
  rewrite Hrun. f_equal. destruct d' as [t' i' c' d'' n1 n2 n3].
  simpl in *. subst. f_equal.
  - apply map_eq. intros t. rewrite lookup_fmap.
    destruct (token2id d !! t) as [i|] eqn:Hi; [|done]. simpl. f_equal.
    apply renum_compact; [done|]. apply elem_of_map_img. eauto.
  - apply map_eq. intros j. apply option_eq. intros v. rewrite Hcf. split.
    + intros (i & Hi & <-). rewrite renum_compact; [done..|].
      apply (wf_cfs _ Hwf). eauto.
    + intros Hv. exists j. split; [done|]. apply renum_compact; [done|].
      apply (wf_cfs _ Hwf). eauto.
  - apply map_eq. intros j. apply option_eq. intros v. rewrite Hd. split.
    + intros (i & Hi & <-). rewrite renum_compact; [done..|].
      apply (wf_dfs _ Hwf). eauto.
    + intros Hv. exists j. split; [done|]. apply renum_compact; [done|].
      apply (wf_dfs _ Hwf). eauto.
Qed.

(** ** More on the sub-vocabulary *)

Lemma filtered_well_formed d (bad : gset nat) :
  well_formed d →
  well_formed
    {| token2id := filter (λ kv, kv.2 ∉ bad) (token2id d);
       id2token := id2token d;
       cfs := filter (λ kv, kv.1 ∉ bad) (cfs d);
       dfs := filter (λ kv, kv.1 ∉ bad) (dfs d);
       num_docs := num_docs d; num_pos := num_pos d;
       num_nnz := num_nnz d |}.
Proof.
  intros [Hinj Hdfs Hcfs].
  assert (∀ (m : gmap nat nat) i,
    (∀ i, is_Some (m !! i) → i ∈ ids d) →
    is_Some (filter (λ kv : nat * nat, kv.1 ∉ bad) m !! i) →
    i ∈ (map_img (filter (λ kv : string * nat, kv.2 ∉ bad) (token2id d))
         : gset nat)) as Hfreq.
  { intros m i Hm [v [Hv Hi]%map_lookup_filter_Some]. simpl in Hi.
    destruct (elem_of_map_img_1 (SA:=gset nat) _ _ (Hm i (mk_is_Some _ _ Hv)))
      as [t Ht].
    apply elem_of_map_img. exists t. by apply map_lookup_filter_Some. }
  split; simpl.
  - intros t1 t2 i [H1 _]%map_lookup_filter_Some [H2 _]%map_lookup_filter_Some.
    by eapply Hinj.
  - intros i. by apply Hfreq.
  - intros i. by apply Hfreq.
Qed.

(** [filter_tokens] keeps the order of the ids of the terms it keeps. *)
Lemma filter_tokens_order d bad_ids d1 t1 t2 i1 i2 j1 j2 :
  well_formed d → filter_tokens d bad_ids = Return d1 →
  token2id d !! t1 = Some i1 → token2id d !! t2 = Some i2 →
  token2id d1 !! t1 = Some j1 → token2id d1 !! t2 = Some j2 →
  j1 < j2 ↔ i1 < i2.
Proof.
  intros Hwf Hrun H1 H2 J1 J2. unfold filter_tokens in Hrun.
  pose proof (filtered_well_formed d (list_to_set bad_ids) Hwf) as Hwf'.
  destruct (compactify_spec _ Hwf') as (d' & Hrun' & Ht & _).
  rewrite Hrun in Hrun'. injection Hrun' as <-. simpl in Ht.
  rewrite Ht, lookup_fmap in J1, J2.
  apply fmap_Some in J1 as (k1 & F1 & ->).
  apply fmap_Some in J2 as (k2 & F2 & ->).
  pose proof (proj1 (map_lookup_filter_Some _ _ _ _) F1) as [K1 _].
  pose proof (proj1 (map_lookup_filter_Some _ _ _ _) F2) as [K2 _].
  assert (k1 = i1) as -> by congruence.
  assert (k2 = i2) as -> by congruence.
  apply renum_order.
  - apply (wf_inj _ Hwf').
  - apply elem_of_map_img. by exists t1.
  - apply elem_of_map_img. by exists t2.
Qed.

(** The two steps of [sub_vocabulary]: the ids it removes are distinct ids
    of the terms that are not allowed, their number is what it prints, and
    the object it leaves is the one [filter_tokens] produces: the second
    compaction finds nothing to renumber. *)
Lemma sub_vocabulary_steps r l by_key (h : heap) :
  well_formed (deref h r) →
  ∃ bad d1,
    filter_tokens (deref h r) bad = Return d1
    ∧ sub_vocabulary r l by_key h
      = Return (r, <[r := d1]> h,
                [LoadExisting; TokensRemoved (length bad);
                 SubDictionaryCreated])
    ∧ NoDup bad
    ∧ (∀ i, i ∈ bad
         ↔ ∃ t, token2id (deref h r) !! t = Some i ∧ ¬ allowed l by_key t i)
    ∧ well_formed d1 ∧ compact d1 ∧ id2token d1 = ∅
    ∧ (∀ t, is_Some (token2id d1 !! t)
         ↔ ∃ i, token2id (deref h r) !! t = Some i ∧ i ∉ bad).
Proof.
  intros Hwf. set (d := deref h r) in *.
  assert (∃ bad,
    (if by_key then
       Return
         (length (elements ((list_to_set (Gensim.keys d) : gset nat)
                            ∖ list_to_set (ids_of l))),
          elements ((list_to_set (Gensim.keys d) : gset nat)
                    ∖ list_to_set (ids_of l)))
     else
       remove_ids ← comprehension (Dict.getitem (token2id d))
         (elements ((list_to_set (Dict.keys (token2id d)) : gset string)
                    ∖ list_to_set (terms_of l)));
       Return
         (length (elements
                    ((list_to_set (Dict.keys (token2id d)) : gset string)
                     ∖ list_to_set (terms_of l))),
          remove_ids))
    = Return (length bad, bad)
    ∧ NoDup bad
    ∧ ∀ i, i ∈ bad ↔ ∃ t, token2id d !! t = Some i ∧ ¬ allowed l by_key t i)
    as (bad & Hrem & Hnd & Hbad).
  { destruct by_key.
    - eexists. split; [reflexivity|]. split; [apply NoDup_elements|].
      intros i. unfold allowed.
      rewrite elem_of_elements, elem_of_difference, !elem_of_list_to_set.
      rewrite ids_of_elem_of. unfold Gensim.keys.
      rewrite values_elem_of, elem_of_map_img. split.
      + intros [[t Ht] Hno]. eauto.
      + intros (t & Ht & Hno). eauto.
    - exists ((λ t, default 0 (token2id d !! t))
              <$> elements ((list_to_set (Dict.keys (token2id d))
                             : gset string) ∖ list_to_set (terms_of l))).
      assert (∀ t, t ∈ elements ((list_to_set (Dict.keys (token2id d))
                                  : gset string) ∖ list_to_set (terms_of l))
                   ↔ is_Some (token2id d !! t) ∧ Term t ∉ l) as Hel.
      { intros t.
        by rewrite elem_of_elements, elem_of_difference,
          !elem_of_list_to_set, keys_elem_of, terms_of_elem_of. }
      split; [|split].
      + rewrite (comprehension_pure _
          (λ t, default 0 (token2id d !! t))).
        * by rewrite length_fmap.
        * intros t [[i Hi] _]%Hel. unfold Dict.getitem. by rewrite Hi.
      + apply NoDup_fmap_2_strong; [|apply NoDup_elements].
        intros t1 t2 [[i1 H1] _]%Hel [[i2 H2] _]%Hel.
        rewrite H1, H2. simpl. intros ->. by eapply (wf_inj _ Hwf).
      + intros i. unfold allowed. rewrite list_elem_of_fmap. split.
        * intros (t & -> & [[i0 Hi] Hno]%Hel). exists t.
          by rewrite Hi.
        * intros (t & Hi & Hno). exists t. rewrite Hi. split; [done|].
          apply Hel. eauto. }
  destruct (filter_tokens_ok d bad Hwf)
    as (d1 & Hrun1 & Hwf1 & Hc1 & Hterms1 & _).
  destruct (filter_tokens_fields d bad d1 Hrun1) as (Hcache & _).
  exists bad, d1. split; [done|]. split; [|done].
  unfold sub_vocabulary. cbv zeta. fold d. rewrite Hrem.
  cbn [mbind result_bind].
  unfold call_method at 2. fold d. rewrite Hrun1. cbn [mbind result_bind].
  unfold call_method, deref. rewrite lookup_total_insert_eq.
  rewrite (compactify_compact d1 Hwf1 Hc1). cbn [mbind result_bind].
  rewrite insert_insert_eq. do 3 f_equal.
  destruct d1. simpl in *. by subst.
Qed.

(** X17: [sub_vocabulary] keeps the relative order of the ids of the terms
    it keeps: of two surviving terms, the one with the smaller id before
    the call has the smaller id after it. *)
Theorem sub_vocabulary_keeps_order r l by_key (h : heap) :
  well_formed (deref h r) →
  ∃ h' printed,
    sub_vocabulary r l by_key h = Return (r, h', printed)
    ∧ ∀ t1 t2 i1 i2 j1 j2,
        token2id (deref h r) !! t1 = Some i1 →
        token2id (deref h r) !! t2 = Some i2 →
        token2id (deref h' r) !! t1 = Some j1 →
        token2id (deref h' r) !! t2 = Some j2 →
        j1 < j2 ↔ i1 < i2.
Proof.
  intros Hwf.
  destruct (sub_vocabulary_steps r l by_key h Hwf)
    as (bad & d1 & Hrun1 & Hrun & _).
  eexists _, _. split; [exact Hrun|].
  unfold deref at 3 4. rewrite lookup_total_insert_eq.
  intros t1 t2 i1 i2 j1 j2. by apply (filter_tokens_order _ bad).
Qed.

(** X18: the number that [sub_vocabulary] prints as removed is the number
    of terms of the vocabulary before the call minus the number after it,
    whether the allow-list is read as terms or as ids. *)
Theorem sub_vocabulary_removed_count r l by_key (h : heap) :
  well_formed (deref h r) →
  ∃ h' count,
    sub_vocabulary r l by_key h
    = Return (r, h',
              [LoadExisting; TokensRemoved count; SubDictionaryCreated])
    ∧ count + size (token2id (deref h' r)) = size (token2id (deref h r)).
Proof.
  intros Hwf.
  destruct (sub_vocabulary_steps r l by_key h Hwf)
    as (bad & d1 & _ & Hrun & Hnd & Hbad & _ & _ & _ & Hterms).
  eexists _, _. split; [exact Hrun|].
  unfold deref at 1. rewrite lookup_total_insert_eq.
  set (m := token2id (deref h r)) in *.
  set (B := list_to_set bad : gset nat).
  set (mf := filter (λ kv : string * nat, kv.2 ∉ B) m).
  assert (∀ t1 t2 i, m !! t1 = Some i → m !! t2 = Some i → t1 = t2) as Hinj
    by apply (wf_inj _ Hwf).
  assert (size (token2id d1) = size mf) as ->.
  { rewrite <-!(size_dom (D:=gset string)). f_equal. apply set_eq.
    intros t. rewrite !elem_of_dom, Hterms. unfold mf. split.
    - intros (i & Hi & Hno). exists i. apply map_lookup_filter_Some.
      split; [done|]. simpl. unfold B. by rewrite elem_of_list_to_set.
    - intros [i [Hi Hno]%map_lookup_filter_Some]. exists i.
      split; [done|]. simpl in Hno. unfold B in Hno.
      by rewrite elem_of_list_to_set in Hno. }
  assert (size mf = size ((map_img m : gset nat) ∖ B)) as ->.
  { rewrite <-size_map_img_inj.
    - f_equal. apply set_eq. intros i.
      rewrite elem_of_difference, !elem_of_map_img. unfold mf. split.
      + intros [t [Hi Hno]%map_lookup_filter_Some]. eauto.
      + intros [[t Hi] Hno]. exists t. by apply map_lookup_filter_Some.
    - intros t1 t2 i [H1 _]%map_lookup_filter_Some
        [H2 _]%map_lookup_filter_Some. by eapply Hinj. }
  rewrite size_difference.
  - rewrite (size_map_img_inj m Hinj). unfold B.
    rewrite size_list_to_set by done.
    assert (length bad ≤ size m); [|lia].
    rewrite <-(size_map_img_inj m Hinj), <-(size_list_to_set (C:=gset nat) bad)
      by done.
    apply subseteq_size. intros i Hi%elem_of_list_to_set%Hbad.
    destruct Hi as (t & Ht & _). apply elem_of_map_img. eauto.
  - intros i Hi%elem_of_list_to_set%Hbad.
    destruct Hi as (t & Ht & _). apply elem_of_map_img. eauto.
Qed.

(** X19: filtering by terms is idempotent.  A second call with the same
    list of terms removes nothing, prints 0 and leaves the heap as the
    first call left it. *)
Theorem sub_vocabulary_terms_idempotent r l (h : heap) :
  well_formed (deref h r) →
  ∃ h' printed,
    sub_vocabulary r l false h = Return (r, h', printed)
    ∧ sub_vocabulary r l false h'
      = Return (r, h', [LoadExisting; TokensRemoved 0; SubDictionaryCreated]).
Proof.
  intros Hwf.
  destruct (sub_vocabulary_steps r l false h Hwf)
    as (bad & d1 & _ & Hrun & _ & Hbad & Hwf1 & Hc1 & Hcache & Hterms).
  eexists _, _. split; [exact Hrun|].
  assert (deref (<[r := d1]> h) r = d1) as Hd1
    by (unfold deref; by rewrite lookup_total_insert_eq).
  destruct (sub_vocabulary_steps r l false (<[r := d1]> h))
    as (bad2 & d2 & Hrun2 & Hrun' & _ & Hbad2 & _); [by rewrite Hd1|].
  rewrite Hd1 in Hrun2, Hbad2.
  assert (bad2 = []) as ->.
  { destruct bad2 as [|i bad2]; [done|]. exfalso.
    destruct (proj1 (Hbad2 i)) as (t & Ht & Hno); [by left|].
    destruct (proj1 (Hterms t)) as (i0 & Hi0 & Hkeep); [eauto|].
    apply Hno. unfold allowed.
    destruct (decide (Term t ∈ l)) as [|Hout]; [done|].
    destruct Hkeep. apply Hbad. exists t. split; [done|]. by unfold allowed. }
  assert (d2 = d1) as ->.
  { unfold filter_tokens in Hrun2. rewrite !map_filter_id in Hrun2.
    - rewrite compactify_compact in Hrun2.
      + injection Hrun2 as <-. destruct d1. simpl in *. by subst.
      + by destruct Hwf1.
      + done.
    - intros ? ? _. simpl. apply not_elem_of_empty.
    - intros ? ? _. simpl. apply not_elem_of_empty.
    - intros ? ? _. simpl. apply not_elem_of_empty. }
  by rewrite Hrun', insert_insert_eq.
Qed.


(** X21: the two readings of the allow-list agree.  When a list of ids
    holds the id of a term exactly when a list of terms holds the term,
    filtering by key with the first and by term with the second give the
    same result: heap, reference and printed count. *)
Theorem sub_vocabulary_by_key_by_term r terms keys (h : heap) :
  well_formed (deref h r) →
  (∀ t i, token2id (deref h r) !! t = Some i →
          Term t ∈ terms ↔ Id i ∈ keys) →
  sub_vocabulary r keys true h = sub_vocabulary r terms false h.
Proof.
  intros Hwf Hagree.
  destruct (sub_vocabulary_steps r keys true h Hwf)
    as (bad1 & d1 & Hrun1 & -> & Hnd1 & Hbad1 & _).
  destruct (sub_vocabulary_steps r terms false h Hwf)
    as (bad2 & d2 & Hrun2 & -> & Hnd2 & Hbad2 & _).
  assert (bad1 ≡ₚ bad2) as Hperm.
  { apply NoDup_Permutation; [done..|]. intros i.
    rewrite Hbad1, Hbad2. unfold allowed. split.
    - intros (t & Ht & Hno). exists t. by rewrite (Hagree t i Ht).
    - intros (t & Ht & Hno). exists t. by rewrite <-(Hagree t i Ht). }
  assert (d1 = d2) as ->.
  { unfold filter_tokens in Hrun1, Hrun2.
    assert ((list_to_set bad1 : gset nat) = list_to_set bad2) as Heq.
    { apply set_eq. intros i. by rewrite !elem_of_list_to_set, Hperm. }
    rewrite Heq in Hrun1. congruence. }
  by rewrite Hperm.
Qed.

(** ** More on merging and on the histogram *)

(** X22: [merge_documents] on lists of different lengths.  With no more
    document ids than documents it prints the shape (number of ids, number
    of terms) and returns [None]; with more ids than documents the row
    selection raises [IndexError]. *)
Theorem merge_documents_bounds corpus dictionary docs_ids :
  (length docs_ids ≤ length corpus →
   merge_documents corpus dictionary docs_ids
   = Return (length docs_ids, Gensim.len dictionary, PyNone))
  ∧ (length corpus < length docs_ids →
     merge_documents corpus dictionary docs_ids = Raise IndexError).
Proof.
  unfold merge_documents.
  rewrite (comprehension_getitem docs_ids)
    by (intros; by apply argsort_in_range).
  cbn [mbind result_bind]. unfold take_rows. split.
  - intros Hle. rewrite (comprehension_getitem _ (argsort docs_ids)).
    + simpl. by rewrite argsort_length.
    + intros index Hi%argsort_in_range. simpl. lia.
  - intros Hlt.
    rewrite (comprehension_raise _ IndexError _ (length corpus)); [done| | |].
    + intros index. unfold list_getitem. destruct (_ !! index); eauto.
    + rewrite argsort_Permutation, elem_of_seq. lia.
    + unfold list_getitem. simpl. by rewrite lookup_ge_None_2.
Qed.

Lemma for_each_raise {A S : Type} (body : S → A → result S) (e : exn) l x s :
  (∀ s x, (∃ s', body s x = Return s') ∨ body s x = Raise e) →
  x ∈ l → (∀ s, body s x = Raise e) → for_each body l s = Raise e.
Proof.
  intros Hb Hin Hx. revert s.
  induction l as [|x' l IH]; intros s; [by apply elem_of_nil in Hin|].
  simpl. apply elem_of_cons in Hin as [<-|Hin]; [by rewrite Hx|].
  destruct (Hb s x') as [[s' ->]| ->]; simpl; [by apply IH | done].
Qed.

Lemma getitem_result dictionary tokenid :
  (∃ term, Gensim.getitem dictionary tokenid = Return term)
  ∨ Gensim.getitem dictionary tokenid = Raise KeyError.
Proof.
  unfold Gensim.getitem, Dict.getitem. destruct (_ !! tokenid); eauto.
Qed.

(** X23: which exception [corpus_histogram] raises.  When the dictionary
    knows every id of the corpus the call raises [AttributeError], at
    [iteritems]; when the corpus holds an id the dictionary does not know
    it raises [KeyError] before that, whatever the sort criterion. *)
Theorem corpus_histogram_exception corpus dictionary sort_by N :
  ((∀ x, x ∈ concat corpus →
         ∃ term, Gensim.getitem dictionary x.1 = Return term) →
   corpus_histogram corpus dictionary sort_by N = Raise AttributeError)
  ∧ ((∃ x, x ∈ concat corpus
           ∧ Gensim.getitem dictionary x.1 = Raise KeyError) →
     corpus_histogram corpus dictionary sort_by N = Raise KeyError).
Proof.
  unfold corpus_histogram, corpus_histogram_with.
  set (sorted_corpus :=
         (λ doc : list (nat * Z), sorted (λ x, (- x.2)%Z) doc) <$> corpus).
  assert (concat sorted_corpus ≡ₚ concat corpus) as Hperm.
  { unfold sorted_corpus. clear. induction corpus as [|doc docs IH]; [done|].
    simpl. by rewrite sorted_Permutation, IH. }
  assert (for_each (collect_weights dictionary) sorted_corpus ∅
          = collect_weights dictionary ∅ (concat sorted_corpus)) as ->.
  { unfold collect_weights. apply for_each_concat. }
  split.
  - intros Hknown.
    destruct (collect_weights_occurrences dictionary (concat sorted_corpus) ∅)
      as (dist & -> & _); [|done].
    intros x Hx. apply Hknown. by rewrite <-Hperm.
  - intros (x & Hx & Hraise). unfold collect_weights.
    rewrite (for_each_raise _ KeyError _ x); [done| | |].
    + intros s y.
      destruct (getitem_result dictionary y.1) as [[term ->]| ->];
        simpl; eauto.
    + by rewrite Hperm.
    + intros s. by rewrite Hraise.
Qed.

(** ** Documents that are not flat *)

Lemma count_words_not_flat doc :
  ¬ flat doc → count_words doc = Raise TypeError.
Proof.
  unfold count_words. generalize (∅ : gmap string nat).
  induction doc as [|[w|l] doc IH]; intros c0 Hnf; simpl.
  - destruct Hnf. by exists [].
  - apply IH. intros [tokens ->]. apply Hnf. by exists (w :: tokens).
  - done.
Qed.

Lemma doc2bow_flat_returns d tokens :
  ∃ d' pairs, doc2bow d (Str <$> tokens) true = Return (d', pairs).
Proof.
  destruct (count_words_flat tokens) as (counter & Hc & _).
  unfold doc2bow. rewrite Hc. simpl. eauto.
Qed.

Lemma flat_or_not doc : flat doc ∨ ¬ flat doc.
Proof.
  induction doc as [|[w|l] doc [[tokens ->]|Hno]].
  - left. by exists [].
  - left. by exists (w :: tokens).
  - right. intros [[|t rest] Heq]; [done|].
    injection Heq as _ ->. apply Hno. by exists rest.
  - right. by intros [[|t rest] Heq].
  - right. by intros [[|t rest] Heq].
Qed.

(** X24: the dictionary wants flat documents.  [add_documents] returns when
    every document is a flat token list, as in [vocabulary], and raises
    [TypeError] when some document holds the token list of a sentence, as a
    stream that keeps the sentence structure yields them. *)
Theorem add_documents_flat_only d docs :
  (Forall flat docs → ∃ d', add_documents d docs = Return d')
  ∧ (¬ Forall flat docs → add_documents d docs = Raise TypeError).
Proof.
  unfold add_documents. split.
  - revert d. induction docs as [|doc docs IH]; intros d Hall; [by exists d|].
    apply Forall_cons in Hall as [[tokens ->] Hall].
    destruct (doc2bow_flat_returns d tokens) as (d1 & pairs & Hrun).
    simpl. rewrite Hrun. simpl. by apply IH.
  - revert d. induction docs as [|doc docs IH]; intros d Hno;
      [by destruct Hno|].
    simpl. destruct (flat_or_not doc) as [[tokens ->]|Hdoc].
    + destruct (doc2bow_flat_returns d tokens) as (d1 & pairs & Hrun).
      rewrite Hrun. simpl. apply IH. intros Hall. apply Hno.
      constructor; [by exists tokens | done].
    + unfold doc2bow. by rewrite (count_words_not_flat doc Hdoc).
Qed.

(** ** The further properties at sample inputs *)

(** Unigrams of the fox line with both sides padded and no pad symbol. *)
Lemma string2tokens_unigrams_reference :
  @string2tokens Reference.nltk fox_line 1 (Padding true true None None) false
  = Return [Str "quick"; Str "fox"; Str "lazy"; Str "dog"]
  ∧ @string2tokens Reference.nltk fox_line 1 (Padding true true None None) true
    = Return [Lst ["quick"; "fox"]; Lst ["lazy"; "dog"]].
Proof.
  apply (@string2tokens_unigrams Reference.nltk fox_line
           (Padding true true None None)
           ["The quick fox."; "The lazy dog."] kept_words).
  - reflexivity.
  - intros s [->|[->|[]%elem_of_nil]%elem_of_cons]%elem_of_cons;
      reflexivity.
Defined.

(** Bigrams of the fox line with the left side padded and no pad symbol. *)
Lemma string2tokens_missing_pad_symbol_reference :
  @string2tokens Reference.nltk fox_line 2 (Padding false true None None) true
  = Raise TypeError.
Proof.
  apply (@string2tokens_missing_pad_symbol Reference.nltk fox_line 2
           (Padding false true None None) true
           ["The quick fox."; "The lazy dog."] kept_words "The quick fox.").
  - lia.
  - apply (decide_by_computation _). by vm_compute.
  - reflexivity.
  - intros s [->|[->|[]%elem_of_nil]%elem_of_cons]%elem_of_cons;
      reflexivity.
  - apply (decide_by_computation _). by vm_compute.
  - by vm_compute.
Defined.

(** Two words padded on both sides give three bigrams. *)
Lemma ith_gram_tokens_count_lazy_dog :
  ∃ grams,
    ith_gram_tokens ["lazy"; "dog"] 2
      (Padding true true (Some "<s>") (Some "</s>")) = Return grams
    ∧ length grams = 3.
Proof.
  apply (ith_gram_tokens_count ["lazy"; "dog"] 2
           (Padding true true (Some "<s>") (Some "</s>"))).
  - lia.
  - apply (decide_by_computation _). by vm_compute.
Defined.

(** The fox line at order 0. *)
Lemma string2tokens_order_zero_reference :
  @string2tokens Reference.nltk fox_line 0 no_padding false = Return []
  ∧ @string2tokens Reference.nltk fox_line 0 no_padding true
    = Return [Lst []; Lst []].
Proof.
  apply (@string2tokens_order_zero Reference.nltk fox_line no_padding
           ["The quick fox."; "The lazy dog."] kept_words).
  - reflexivity.
  - intros s [->|[->|[]%elem_of_nil]%elem_of_cons]%elem_of_cons;
      reflexivity.
Defined.

(** A line of three spaces. *)
Lemma string2tokens_blank_line_reference :
  clean_line "   " = EmptyString
  ∧ @string2tokens Reference.nltk "   " 2 no_padding false = Return [].
Proof.
  apply (@string2tokens_blank_line Reference.nltk "   " 2 no_padding false).
  - apply (decide_by_computation _). by vm_compute.
  - reflexivity.
Defined.

(** The letter w of a sentence with an upper-case W. *)
Lemma word_tokenizer_input_hello :
  ¬ Str.ispunct "w" ∧ ¬ Str.isupper "w" ∧ "w"%char ≠ Str.underscore.
Proof.
  apply (word_tokenizer_input "Hello, World_1!" "w").
  apply (decide_by_computation _). by vm_compute.
Defined.


(** The first row of the corpus of the pet lines. *)
Lemma corpus_counts_pets :
  ∃ rows,
    @corpus Reference.nltk pet_lines (deref pet_heap 0) 1 no_padding
    = Return rows
    ∧ ∃ row, rows !! 0 = Some row ∧ NoDup row.*1.
Proof.
  destruct (@corpus_counts Reference.nltk pet_lines (deref pet_heap 0) 1
              no_padding (wf_inj _ pet_vocabulary_well_formed))
    as (rows & Hrun & Hrows).
  exists rows. split; [exact Hrun|].
  destruct (Hrows 0 "cat dog" eq_refl) as (row & Hrow & Hnd & _).
  by exists row.
Defined.


(** Dog (id 1) and bird (id 2) stay in this order when cat is removed. *)
Lemma sub_vocabulary_keeps_order_pets :
  ∃ h' printed,
    sub_vocabulary 0 [Term "dog"; Term "bird"] false pet_heap
    = Return (0, h', printed)
    ∧ ∀ j1 j2,
        token2id (deref h' 0) !! "dog" = Some j1 →
        token2id (deref h' 0) !! "bird" = Some j2 →
        j1 < j2.
Proof.
  destruct (sub_vocabulary_keeps_order 0 [Term "dog"; Term "bird"] false
              pet_heap pet_vocabulary_well_formed)
    as (h' & printed & Hrun & Hord).
  exists h', printed. split; [exact Hrun|].
  intros j1 j2 H1 H2.
  apply (Hord "dog" "bird" 1 2 j1 j2); [by vm_compute| by vm_compute|..];
    [exact H1 | exact H2 | lia].
Defined.

(** One of the three pet terms is removed. *)
Lemma sub_vocabulary_removed_count_pets :
  ∃ h' count,
    sub_vocabulary 0 [Term "dog"; Term "bird"] false pet_heap
    = Return (0, h',
              [LoadExisting; TokensRemoved count; SubDictionaryCreated])
    ∧ count + size (token2id (deref h' 0)) = 3.
Proof.
  destruct (sub_vocabulary_removed_count 0 [Term "dog"; Term "bird"] false
              pet_heap pet_vocabulary_well_formed)
    as (h' & count & Hrun & Hcount).
  exists h', count. split; [exact Hrun|].
  rewrite Hcount. by vm_compute.
Defined.

(** The pet vocabulary filtered twice by dog and bird. *)
Lemma sub_vocabulary_terms_idempotent_pets :
  ∃ h' printed,
    sub_vocabulary 0 [Term "dog"; Term "bird"] false pet_heap
    = Return (0, h', printed)
    ∧ sub_vocabulary 0 [Term "dog"; Term "bird"] false h'
      = Return (0, h', [LoadExisting; TokensRemoved 0; SubDictionaryCreated]).
Proof.
  exact (sub_vocabulary_terms_idempotent 0 [Term "dog"; Term "bird"]
           pet_heap pet_vocabulary_well_formed).
Defined.


(** Dog and bird have the ids 1 and 2 in the pet vocabulary. *)
Lemma pet_vocabulary_dog_bird t i :
  token2id (deref pet_heap 0) !! t = Some i →
  Term t ∈ [Term "dog"; Term "bird"] ↔ Id i ∈ [Id 1; Id 2].
Proof.
  intros Hti. apply elem_of_map_to_list in Hti.
  assert (map_to_list (token2id (deref pet_heap 0))
          = [("cat", 0); ("bird", 2); ("dog", 1)]) as Hl by (by vm_compute).
  rewrite Hl in Hti. clear Hl.
  repeat (apply elem_of_cons in Hti as [Heq|Hti];
          [injection Heq as -> ->;
           apply (decide_by_computation _); by vm_compute|]).
  by apply elem_of_nil in Hti.
Qed.

(** The pet vocabulary filtered by the ids 1 and 2, and by dog and bird. *)
Lemma sub_vocabulary_by_key_by_term_pets :
  sub_vocabulary 0 [Id 1; Id 2] true pet_heap
  = sub_vocabulary 0 [Term "dog"; Term "bird"] false pet_heap.
Proof.
  exact (sub_vocabulary_by_key_by_term 0 [Term "dog"; Term "bird"]
           [Id 1; Id 2] pet_heap pet_vocabulary_well_formed
           pet_vocabulary_dog_bird).
Defined.

(** One id for two documents, and two ids for one document. *)
Lemma merge_documents_bounds_pets :
  merge_documents [[(0, 1)]; [(0, 2); (1, 1)]] pet_vocabulary [7%Z]
  = Return (1, Gensim.len pet_vocabulary, PyNone)
  ∧ merge_documents [[(0, 1)]] pet_vocabulary [7%Z; 3%Z] = Raise IndexError.
Proof.
  split.
  - apply (proj1 (merge_documents_bounds [[(0, 1)]; [(0, 2); (1, 1)]]
                    pet_vocabulary [7%Z])). simpl. lia.
  - apply (proj2 (merge_documents_bounds [[(0, 1)]] pet_vocabulary
                    [7%Z; 3%Z])). simpl. lia.
Defined.

(** The id 0 is the id of cat; the pet vocabulary has no id 7. *)
Lemma corpus_histogram_exception_pets :
  corpus_histogram [[(0, 1%Z)]] pet_vocabulary "count" 10
  = Raise AttributeError
  ∧ corpus_histogram [[(7, 1%Z)]] pet_vocabulary "count" 10
    = Raise KeyError.
Proof.
  split.
  - apply (proj1 (corpus_histogram_exception [[(0, 1%Z)]] pet_vocabulary
                    "count" 10)).
    intros x Hx. apply list_elem_of_singleton in Hx as ->.
    exists "cat". by vm_compute.
  - apply (proj2 (corpus_histogram_exception [[(7, 1%Z)]] pet_vocabulary
                    "count" 10)).
    exists (7, 1%Z). split; [by apply list_elem_of_singleton|by vm_compute].
Defined.

(** A flat document, and a document of one sentence. *)
Lemma add_documents_flat_only_pets :
  (∃ d', add_documents Gensim.empty [[Str "cat"; Str "dog"]] = Return d')
  ∧ add_documents Gensim.empty [[Lst ["cat"; "dog"]]] = Raise TypeError.
Proof.
  split.
  - apply (proj1 (add_documents_flat_only Gensim.empty
                    [[Str "cat"; Str "dog"]])).
    repeat constructor. by exists ["cat"; "dog"].
  - apply (proj2 (add_documents_flat_only Gensim.empty
                    [[Lst ["cat"; "dog"]]])).
    intros Hall. apply Forall_cons in Hall as [[tokens Heq] _].
    by destruct tokens.
Defined.
